(** * BOJ_Whishper: the SQLite-backed store of [src/db/db.py]

    A shallow embedding of the [Database] class: the text codec used for the
    [solved_problems] column ([json.dumps] / [json.loads] on lists of
    integers), the four tables and the statements the methods execute on
    them, and the double-checked locking of [Database.__new__] as a
    transition system over interleaved invocations. *)

From Stdlib Require Import ZArith NArith List String Ascii Bool Lia.
From Stdlib Require Import DecimalString.
From Stdlib Require DecimalFacts DecimalPos DecimalZ.
Import ListNotations.

#[local] Open Scope string_scope.
#[local] Open Scope Z_scope.

(* ================================================================= *)
(** ** The JSON text of a list of integers *)

(** [update_user_solved_problems] stores [json.dumps(solved_problems)] and
    [add_user] stores [json.dumps([])].  For a [List[int]] the encoder
    writes the items with [int.__repr__], separated by [", "], between
    square brackets; it answers [None] where [json.dumps] raises.  The
    decoder below is [json.loads] restricted to texts whose value is a list
    of integers: it answers [None] both where [json.loads] raises and where
    the value is of another shape. *)

Module Json.

(** The most digits an [int] may have when it is converted to or from a
    decimal string ([sys.int_info.default_max_str_digits]; [db.py] leaves
    the default in place). *)
Definition max_str_digits : nat := 4300.

(** The decimal text of an integer: a minus sign for negative numbers,
    then the digits without leading zeros. *)
Definition text (z : Z) : string := NilZero.string_of_int (Z.to_int z).

(** The length of a decimal text without its sign. *)
Definition unsigned_length (s : string) : nat :=
  match s with
  | String c r => if Ascii.eqb c "-" then String.length r else String.length s
  | EmptyString => 0%nat
  end.

Definition within_limit (z : Z) : bool :=
  (unsigned_length (text z) <=? max_str_digits)%nat.

(** [int.__repr__]: the decimal text, or [None] where the conversion raises
    [ValueError] because the integer has more than [max_str_digits]
    digits. *)
Definition repr (z : Z) : option string :=
  if within_limit z then Some (text z) else None.

(** The items as the encoder writes them, one after the other, with
    [", "] between them; the first item that cannot be written ends it. *)
Fixpoint join_items (l : list Z) : option string :=
  match l with
  | [] => Some ""
  | x :: rest =>
      match repr x with
      | None => None
      | Some a =>
          match rest with
          | [] => Some a
          | _ :: _ =>
              match join_items rest with
              | Some b => Some (a ++ ", " ++ b)
              | None => None
              end
          end
      end
  end.

Definition dumps (l : list Z) : option string :=
  match join_items l with
  | Some items => Some ("[" ++ items ++ "]")
  | None => None
  end.

(** The decoder's [WHITESPACE]: space, tab, line feed, carriage return. *)
Definition is_ws (c : ascii) : bool :=
  Ascii.eqb c " " || Ascii.eqb c "009" || Ascii.eqb c "010" || Ascii.eqb c "013".

Fixpoint skip_ws (s : string) : string :=
  match s with
  | String c s' => if is_ws c then skip_ws s' else s
  | EmptyString => s
  end.

Definition is_digit (c : ascii) : bool :=
  (48 <=? nat_of_ascii c)%nat && (nat_of_ascii c <=? 57)%nat.

(** The longest run of digits at the head of [s], and what follows it. *)
Fixpoint span_digits (s : string) : string * string :=
  match s with
  | String c s' =>
      if is_digit c
      then let (ds, r) := span_digits s' in (String c ds, r)
      else (EmptyString, s)
  | EmptyString => (EmptyString, EmptyString)
  end.

(** The integer group of the decoder's [NUMBER_RE]: an optional minus sign,
    then either a single zero or a non-zero digit followed by any digits.
    Returns the matched token and the rest of the text. *)
Definition match_integer (s : string) : option (string * string) :=
  let (sign, body) :=
    match s with
    | String c s' => if Ascii.eqb c "-" then ("-", s') else ("", s)
    | EmptyString => ("", s)
    end in
  match body with
  | String c r =>
      if Ascii.eqb c "0" then Some (sign ++ "0", r)
      else if is_digit c
           then let (ds, r') := span_digits r in Some (sign ++ String c ds, r')
           else None
  | EmptyString => None
  end.

(** The fraction and exponent groups of [NUMBER_RE]: when one of them
    matches, the number is a float and not an integer. *)
Definition float_tail (s : string) : bool :=
  match s with
  | String c (String d r) =>
      (Ascii.eqb c "." && is_digit d)
      || ((Ascii.eqb c "e" || Ascii.eqb c "E")
          && (is_digit d
              || ((Ascii.eqb d "+" || Ascii.eqb d "-")
                  && match r with String e _ => is_digit e | _ => false end)))
  | _ => false
  end.

(** [int(token)] on a token matched by [match_integer]; it raises
    [ValueError] on more than [max_str_digits] digits. *)
Definition int_of_token (tok : string) : option Z :=
  if (unsigned_length tok <=? max_str_digits)%nat
  then option_map Z.of_int (NilZero.int_of_string tok)
  else None.

(** [scan_once] at a number: an integer and the rest of the text. *)
Definition scan_int (s : string) : option (Z * string) :=
  match match_integer s with
  | Some (tok, r) =>
      if float_tail r then None
      else match int_of_token tok with
           | Some z => Some (z, r)
           | None => None
           end
  | None => None
  end.

(** The [while True] loop of [JSONArray]: a value, then ["]"] or [","].
    Every turn consumes at least one character, so the length of the text
    is fuel enough. *)
Fixpoint parse_items (fuel : nat) (s : string) : option (list Z * string) :=
  match fuel with
  | O => None
  | S fuel' =>
      match scan_int s with
      | None => None
      | Some (v, r) =>
          match skip_ws r with
          | String c r' =>
              if Ascii.eqb c "]" then Some ([v], r')
              else if Ascii.eqb c ","
                   then match parse_items fuel' (skip_ws r') with
                        | Some (vs, r'') => Some (v :: vs, r'')
                        | None => None
                        end
                   else None
          | EmptyString => None
          end
      end
  end.

(** [JSONArray]: the opening bracket, the look-ahead for the empty array,
    then the items. *)
Definition parse_array (s : string) : option (list Z * string) :=
  match s with
  | String c r =>
      if Ascii.eqb c "["
      then match skip_ws r with
           | String d r' =>
               if Ascii.eqb d "]" then Some ([], r')
               else parse_items (String.length r) (skip_ws r)
           | EmptyString => None
           end
      else None
  | EmptyString => None
  end.

(** [json.loads]: leading whitespace, the array, trailing whitespace, and
    nothing more (else "Extra data"). *)
Definition loads (s : string) : option (list Z) :=
  match parse_array (skip_ws s) with
  | Some (vs, r) =>
      match skip_ws r with
      | EmptyString => Some vs
      | String _ _ => None
      end
  | None => None
  end.

End Json.

(* ================================================================= *)
(** ** The store: tables, statements and the methods of [Database] *)

Module Store.

(** [datetime.now()] is an input of the methods that read the clock. *)
Definition timestamp := Z.

(** *** Rows, as [_initialize_database] declares them *)

Record User := mkUser {
  user_id : Z;
  handle : string;
  solved_count : Z;
  solved_problems : string;
  last_check_time : timestamp;
  last_update_time : timestamp
}.

Record Server := mkServer {
  server_id : Z;
  server_name : string
}.

Record Channel := mkChannel {
  channel_id : Z;
  channel_name : string;
  channel_server_id : Z
}.

Record Mapping := mkMapping {
  mapping_id : Z;
  mapping_user_id : Z;
  mapping_channel_id : Z;
  mapping_server_id : Z
}.

(** The four tables in rowid order, and the [sqlite_sequence] counters that
    [AUTOINCREMENT] keeps for them.  Rowids are unbounded here: the
    table-full error at rowid [2^63 - 1] is outside the model. *)
Record tables := mkTables {
  Users : list User;
  Servers : list Server;
  Channels : list Channel;
  UserChannelMapping : list Mapping;
  seq_Users : Z;
  seq_Servers : Z;
  seq_Channels : Z;
  seq_UserChannelMapping : Z
}.

(** [self.connection]: what statements on the connection see, and what the
    last [commit] wrote to [db.sqlite3]. *)
Record connection := mkConnection {
  view : tables;
  durable : tables
}.

(** *** Exceptions and the monad of the methods *)

Inductive exn :=
| IntegrityError (msg : string)   (* sqlite3.IntegrityError *)
| OverflowError                   (* an int parameter outside SQLite's INTEGER *)
| ValueError (msg : string).      (* raised by map_user_to_channel *)

Inductive result (A : Type) :=
| Ok (a : A)
| Raise (e : exn).
Arguments Ok {A} a.
Arguments Raise {A} e.

Definition M (A : Type) := connection -> result A * connection.

Definition ret {A} (a : A) : M A := fun c => (Ok a, c).
Definition raise {A} (e : exn) : M A := fun c => (Raise e, c).
Definition bind {A B} (m : M A) (k : A -> M B) : M B :=
  fun c => match m c with
           | (Ok a, c') => k a c'
           | (Raise e, c') => (Raise e, c')
           end.

Notation "x <- m ;; k" := (bind m (fun x => k))
  (at level 61, m at next level, right associativity).
Notation "m ;;; k" := (bind m (fun _ => k))
  (at level 61, right associativity).

(** A statement that reads or writes the connection's view.  A statement
    that fails is backed out whole, so it leaves the view as it was.  (The
    transaction that the [sqlite3] module opens before an [INSERT] or an
    [UPDATE] changes no table by itself; the model does not keep track
    of it.) *)
Definition statement {A} (f : tables -> result (A * tables)) : M A :=
  fun c => match f (view c) with
           | Ok (a, t) => (Ok a, mkConnection t (durable c))
           | Raise e => (Raise e, c)
           end.

(** [self.connection.commit()] *)
Definition commit : M unit :=
  fun c => (Ok tt, mkConnection (view c) (view c)).

(** Binding a Python [int] to a statement parameter: SQLite's INTEGER is a
    signed 64-bit value, and the binding raises outside that range. *)
Definition fits_int64 (z : Z) : bool :=
  (- 2 ^ 63 <=? z) && (z <? 2 ^ 63).

(** The rowid that [AUTOINCREMENT] gives to a new row: one more than the
    largest rowid the table holds or ever held. *)
Definition max_rowid {R} (key : R -> Z) (rows : list R) : Z :=
  fold_right (fun r m => Z.max (key r) m) 0 rows.

Definition next_rowid {R} (key : R -> Z) (rows : list R) (seq : Z) : Z :=
  Z.max seq (max_rowid key rows) + 1.

(** *** The schema *)

Definition empty_tables : tables := mkTables [] [] [] [] 0 0 0 0.

(** [_initialize_database]: [CREATE TABLE IF NOT EXISTS] four times, then a
    commit.  [file] is what [db.sqlite3] held when the connection was
    opened: [None] for a new file, in which the tables are created empty;
    tables that exist are left as they are. *)
Definition _initialize_database (file : option tables) : connection :=
  match file with
  | None => mkConnection empty_tables empty_tables
  | Some t => mkConnection t t
  end.

(** *** Statements *)

Definition handle_is (h : string) (u : User) : bool := String.eqb (handle u) h.

(** [INSERT INTO Users (handle, solved_count, solved_problems,
    last_check_time, last_update_time) VALUES (?, 0, ?, ?, ?)];
    [handle] is [UNIQUE]. *)
Definition insert_user (h : string) (problems : string) (t1 t2 : timestamp)
  (t : tables) : result (unit * tables) :=
  if existsb (handle_is h) (Users t)
  then Raise (IntegrityError "UNIQUE constraint failed: Users.handle")
  else
    let id := next_rowid user_id (Users t) (seq_Users t) in
    Ok (tt, mkTables (Users t ++ [mkUser id h 0 problems t1 t2])
                     (Servers t) (Channels t) (UserChannelMapping t)
                     id (seq_Servers t) (seq_Channels t)
                     (seq_UserChannelMapping t)).

(** [INSERT INTO Servers (name) VALUES (?)] *)
Definition insert_server (name : string) (t : tables) : result (unit * tables) :=
  let id := next_rowid server_id (Servers t) (seq_Servers t) in
  Ok (tt, mkTables (Users t) (Servers t ++ [mkServer id name])
                   (Channels t) (UserChannelMapping t)
                   (seq_Users t) id (seq_Channels t)
                   (seq_UserChannelMapping t)).

(** [INSERT INTO Channels (name, server_id) VALUES (?, ?)]; the foreign key
    is declared but SQLite does not enforce it unless the connection turns
    [PRAGMA foreign_keys] on, which this code never does. *)
Definition insert_channel (name : string) (sid : Z) (t : tables)
  : result (unit * tables) :=
  if fits_int64 sid then
    let id := next_rowid channel_id (Channels t) (seq_Channels t) in
    Ok (tt, mkTables (Users t) (Servers t)
                     (Channels t ++ [mkChannel id name sid])
                     (UserChannelMapping t)
                     (seq_Users t) (seq_Servers t) id
                     (seq_UserChannelMapping t))
  else Raise OverflowError.

(** [INSERT INTO UserChannelMapping (user_id, channel_id, server_id)
    VALUES (?, ?, ?)]; the foreign keys are not enforced either. *)
Definition insert_mapping (uid cid sid : Z) (t : tables)
  : result (unit * tables) :=
  if fits_int64 cid && fits_int64 sid then
    let id := next_rowid mapping_id (UserChannelMapping t)
                (seq_UserChannelMapping t) in
    Ok (tt, mkTables (Users t) (Servers t) (Channels t)
                     (UserChannelMapping t ++ [mkMapping id uid cid sid])
                     (seq_Users t) (seq_Servers t) (seq_Channels t) id)
  else Raise OverflowError.

(** The [SET] clause of the update, on one row. *)
Definition set_solved (count : Z) (problems : string) (now : timestamp)
  (u : User) : User :=
  mkUser (user_id u) (handle u) count problems (last_check_time u) now.

(** [UPDATE Users SET solved_count = ?, solved_problems = ?,
    last_update_time = ? WHERE handle = ?] *)
Definition update_solved (count : Z) (problems : string) (now : timestamp)
  (h : string) (t : tables) : result (unit * tables) :=
  Ok (tt, mkTables
            (map (fun u => if handle_is h u
                           then set_solved count problems now u else u)
                 (Users t))
            (Servers t) (Channels t) (UserChannelMapping t)
            (seq_Users t) (seq_Servers t) (seq_Channels t)
            (seq_UserChannelMapping t)).

(** [SELECT id FROM Users WHERE handle = ?], then [fetchone()]. *)
Definition select_user_id (h : string) (t : tables)
  : result (option Z * tables) :=
  Ok (option_map user_id (find (handle_is h) (Users t)), t).

Definition channel_row := (Z * string * Z * string)%type.

(** The [SELECT] of [get_user_channels]: the rows of [UserChannelMapping],
    each joined with the rows of [Users], [Channels] and [Servers] that
    satisfy its [ON] condition, those with [Users.handle = ?] kept, and the
    four selected columns of each. *)
Definition select_user_channels (h : string) (t : tables) : list channel_row :=
  flat_map (fun m =>
    flat_map (fun u =>
      if user_id u =? mapping_user_id m then
        flat_map (fun ch =>
          if channel_id ch =? mapping_channel_id m then
            flat_map (fun sv =>
              if server_id sv =? mapping_server_id m then
                if handle_is h u
                then [(channel_id ch, channel_name ch,
                       server_id sv, server_name sv)]
                else []
              else [])
              (Servers t)
          else [])
          (Channels t)
      else [])
      (Users t))
    (UserChannelMapping t).

(** *** The methods *)

Definition digits_exceeded : exn :=
  ValueError ("Exceeds the limit (4300 digits) for integer string conversion;"
              ++ " use sys.set_int_max_str_digits() to increase the limit").

(** [json.dumps(l)] among the arguments of a statement: it is evaluated
    before the statement is executed, and raises before anything is
    written. *)
Definition json_dumps (l : list Z) : M string :=
  match Json.dumps l with
  | Some text => ret text
  | None => raise digits_exceeded
  end.

Definition add_user (now : timestamp) (h : string) : M unit :=
  let current_time := now in
  text <- json_dumps [] ;;
  statement (insert_user h text current_time current_time) ;;;
  commit.

Definition add_server (name : string) : M unit :=
  statement (insert_server name) ;;;
  commit.

Definition add_channel (name : string) (sid : Z) : M unit :=
  statement (insert_channel name sid) ;;;
  commit.

Definition get_user_id_by_handle (h : string) : M (option Z) :=
  statement (select_user_id h).

Definition not_found (h : string) : exn :=
  ValueError ("유저 핸들 '" ++ h ++ "'에 해당하는 유저를 찾을 수 없습니다.").

Definition map_user_to_channel (h : string) (cid sid : Z) : M unit :=
  uid <- get_user_id_by_handle h ;;
  match uid with
  | Some uid =>
      statement (insert_mapping uid cid sid) ;;;
      commit
  | None => raise (not_found h)
  end.

Definition update_user_solved_problems (now : timestamp) (h : string)
  (solved : list Z) : M unit :=
  let current_time := now in
  let count := Z.of_nat (List.length solved) in
  text <- json_dumps solved ;;
  statement (update_solved count text current_time h) ;;;
  commit.

Definition get_user_channels (h : string) : M (list channel_row) :=
  statement (fun t => Ok (select_user_channels h t, t)).

(** *** Histories of calls *)

Inductive call :=
| AddUser (now : timestamp) (h : string)
| AddServer (name : string)
| AddChannel (name : string) (sid : Z)
| MapUserToChannel (h : string) (cid sid : Z)
| UpdateUserSolvedProblems (now : timestamp) (h : string) (solved : list Z)
| GetUserChannels (h : string)
| GetUserIdByHandle (h : string).

(** The connection after a call, whether it returned or raised. *)
Definition after (k : call) (c : connection) : connection :=
  match k with
  | AddUser now h => snd (add_user now h c)
  | AddServer name => snd (add_server name c)
  | AddChannel name sid => snd (add_channel name sid c)
  | MapUserToChannel h cid sid => snd (map_user_to_channel h cid sid c)
  | UpdateUserSolvedProblems now h solved =>
      snd (update_user_solved_problems now h solved c)
  | GetUserChannels h => snd (get_user_channels h c)
  | GetUserIdByHandle h => snd (get_user_id_by_handle h c)
  end.

Definition run (ks : list call) (c : connection) : connection :=
  fold_left (fun c k => after k c) ks c.

(** The states of the store: a new file bootstrapped by
    [_initialize_database], then any calls of the methods.  A later process
    opens the file a former one left, so its states are among these. *)
Definition reachable (c : connection) : Prop :=
  exists ks, c = run ks (_initialize_database None).

(** The rows of [Users] with a given handle. *)
Definition users_with (h : string) (c : connection) : list User :=
  filter (handle_is h) (Users (view c)).

End Store.

(* ================================================================= *)
(** ** [Database.__new__]: double-checked locking *)

(** Invocations of [Database()] are numbered; any number of them run
    interleaved, one step at a time, over the class attributes [_instance],
    [_dcl] and [_lock].  A step is one read or write of a class attribute or
    one call of lines 21 to 29 of [db.py]; a sequential history is the
    interleaving that runs each invocation to its end before the next. *)

Module Singleton.

(** Where an invocation stands. *)
Inductive pc :=
| CheckInstance          (* line 21: cls._instance is None *)
| CheckDcl               (* line 21: not cls._dcl *)
| Acquire                (* line 22: with cls._lock, entering *)
| Recheck                (* line 23: cls._instance is None *)
| Create                 (* line 24: cls._instance = super().__new__(cls) *)
| Connect                (* line 25: sqlite3.connect *)
| Cursor                 (* line 26: connection.cursor() *)
| Initialize             (* line 27: _initialize_database() *)
| SetDcl                 (* line 28: cls._dcl = True *)
| Release                (* line 22: with cls._lock, leaving *)
| Return                 (* line 29: return cls._instance *)
| Returned (v : option nat).

(** The class attributes, the allocator of objects, counters of the two
    effects of the setup, and the place of every invocation.  An instance is
    known by its address. *)
Record state := mkState {
  _instance : option nat;
  _dcl : bool;
  _lock : option nat;          (* the invocation that holds the lock *)
  allocated : nat;             (* objects made by super().__new__ *)
  connects : nat;              (* calls of sqlite3.connect *)
  bootstraps : nat;            (* calls of _initialize_database *)
  at_pc : nat -> pc
}.

Definition init : state :=
  mkState None false None 0 0 0 (fun _ => CheckInstance).

Definition goto (i : nat) (p : pc) (f : nat -> pc) : nat -> pc :=
  fun j => if Nat.eqb j i then p else f j.

(** One step of invocation [i]; [None] when it is blocked on the lock or
    has returned. *)
Definition step (i : nat) (s : state) : option state :=
  let jump p :=
    mkState (_instance s) (_dcl s) (_lock s) (allocated s) (connects s)
            (bootstraps s) (goto i p (at_pc s)) in
  match at_pc s i with
  | CheckInstance =>
      Some (jump (match _instance s with None => CheckDcl | Some _ => Return end))
  | CheckDcl =>
      Some (jump (if _dcl s then Return else Acquire))
  | Acquire =>
      match _lock s with
      | None =>
          Some (mkState (_instance s) (_dcl s) (Some i) (allocated s)
                        (connects s) (bootstraps s)
                        (goto i Recheck (at_pc s)))
      | Some _ => None
      end
  | Recheck =>
      Some (jump (match _instance s with None => Create | Some _ => Release end))
  | Create =>
      Some (mkState (Some (allocated s)) (_dcl s) (_lock s) (S (allocated s))
                    (connects s) (bootstraps s) (goto i Connect (at_pc s)))
  | Connect =>
      Some (mkState (_instance s) (_dcl s) (_lock s) (allocated s)
                    (S (connects s)) (bootstraps s) (goto i Cursor (at_pc s)))
  | Cursor =>
      Some (jump Initialize)
  | Initialize =>
      Some (mkState (_instance s) (_dcl s) (_lock s) (allocated s)
                    (connects s) (S (bootstraps s)) (goto i SetDcl (at_pc s)))
  | SetDcl =>
      Some (mkState (_instance s) true (_lock s) (allocated s)
                    (connects s) (bootstraps s) (goto i Release (at_pc s)))
  | Release =>
      Some (mkState (_instance s) (_dcl s) None (allocated s)
                    (connects s) (bootstraps s) (goto i Return (at_pc s)))
  | Return =>
      Some (jump (Returned (_instance s)))
  | Returned _ => None
  end.

(** A schedule names the invocation that moves next; one that cannot move
    leaves the state as it is. *)
Definition sched_step (s : state) (i : nat) : state :=
  match step i s with
  | Some s' => s'
  | None => s
  end.

Definition run (schedule : list nat) (s : state) : state :=
  fold_left sched_step schedule s.

(** Inside the [with] block. *)
Definition in_critical (p : pc) : bool :=
  match p with
  | Recheck | Create | Connect | Cursor | Initialize | SetDcl | Release => true
  | _ => false
  end.

(** The attributes and counters that all invocations share. *)
Definition shared (s : state) : option nat * bool * nat * nat * nat :=
  (_instance s, _dcl s, allocated s, connects s, bootstraps s).

(** Before the setup, and after it. *)
Definition untouched : option nat * bool * nat * nat * nat :=
  (None, false, 0, 0, 0)%nat.
Definition set_up : option nat * bool * nat * nat * nat :=
  (Some 0, true, 1, 1, 1)%nat.

(** What the shared state is, by the place of the holder of the lock. *)
Definition phase_ok (s : state) : Prop :=
  match _lock s with
  | None => shared s = untouched \/ shared s = set_up
  | Some i =>
      match at_pc s i with
      | Recheck => shared s = untouched \/ shared s = set_up
      | Create => shared s = untouched
      | Connect => shared s = (Some 0, false, 1, 0, 0)%nat
      | Cursor | Initialize => shared s = (Some 0, false, 1, 1, 0)%nat
      | SetDcl => shared s = (Some 0, false, 1, 1, 1)%nat
      | Release => shared s = set_up
      | _ => False
      end
  end.

Record invariant (s : state) : Prop := {
  inv_phase : phase_ok s;
  inv_lock : forall j, in_critical (at_pc s j) = true -> _lock s = Some j;
  inv_return : forall j, at_pc s j = Return -> _instance s = Some 0%nat;
  inv_returned : forall j v,
      at_pc s j = Returned v -> v = Some 0%nat /\ _instance s = Some 0%nat
}.

(** An upper bound on the steps an invocation still has to take. *)
Definition todo (p : pc) : nat :=
  match p with
  | CheckInstance => 11
  | CheckDcl => 10
  | Acquire => 9
  | Recheck => 8
  | Create => 7
  | Connect => 6
  | Cursor => 5
  | Initialize => 4
  | SetDcl => 3
  | Release => 2
  | Return => 1
  | Returned _ => 0
  end.

(** Nothing stands in the way of invocation [i]: the lock is free, or [i]
    holds it inside the [with] block. *)
Definition unhindered (i : nat) (s : state) : Prop :=
  _lock s = None \/ (_lock s = Some i /\ in_critical (at_pc s i) = true).

End Singleton.

(* ================================================================= *)
(** ** Properties of texts and of store states *)

Module Spec.
Import Store.

(** What may follow an item in an encoded list: the separator or the
    closing bracket. *)
Definition item_end (r : string) : Prop :=
  exists r', r = String "," r' \/ r = String "]" r'.

(** The text of the items of a list, when every item can be written. *)
Fixpoint join_text (l : list Z) : string :=
  match l with
  | [] => ""
  | [x] => Json.text x
  | x :: rest => Json.text x ++ ", " ++ join_text rest
  end.

(** Every item has at most [Json.max_str_digits] digits. *)
Definition all_within_limit (l : list Z) : bool :=
  forallb Json.within_limit l.

(** Every row of [Users] carries the count of the list its text holds. *)
Definition counts_agree (t : tables) : Prop :=
  forall u, In u (Users t) ->
    exists l, Json.loads (solved_problems u) = Some l
              /\ solved_count u = Z.of_nat (List.length l).

(** Rowids are the ones [AUTOINCREMENT] handed out, each once. *)
Definition keys_ok {R} (key : R -> Z) (rows : list R) (seq : Z) : Prop :=
  0 <= seq /\ NoDup (map key rows) /\ forall r, In r rows -> 0 < key r <= seq.

Record well_formed (c : connection) : Prop := {
  wf_committed : durable c = view c;
  wf_handles : NoDup (map handle (Users (view c)));
  wf_users : keys_ok user_id (Users (view c)) (seq_Users (view c));
  wf_servers : keys_ok server_id (Servers (view c)) (seq_Servers (view c));
  wf_channels : keys_ok channel_id (Channels (view c)) (seq_Channels (view c));
  wf_counts : counts_agree (view c)
}.

(** The history the script at the end of [db.py] runs, with the clock
    read as 0 by [add_user] and as 1 by the update. *)
Definition demo : list call :=
  [ AddUser 0 "user1";
    AddServer "Server1"; AddServer "Server2";
    AddChannel "Channel1" 1; AddChannel "Channel2" 1; AddChannel "Channel3" 2;
    MapUserToChannel "user1" 1 1; MapUserToChannel "user1" 2 1;
    MapUserToChannel "user1" 3 2;
    UpdateUserSolvedProblems 1 "user1" [1001; 1002; 1003] ].

Definition demo_store : connection := run demo (_initialize_database None).

Definition demo_user : User :=
  mkUser 1 "user1" 3 "[1001, 1002, 1003]" 0 1.

(** What [update_user_solved_problems] may change in a row [u] that it
    turns into [u'], for the handle [h]. *)
Definition update_frame_row (h : string) (u u' : User) : Prop :=
  user_id u' = user_id u
  /\ handle u' = handle u
  /\ last_check_time u' = last_check_time u
  /\ (handle u <> h -> u' = u).

(** The rows of the three tables that a membership refers to, by rowid. *)
Definition find_user (id : Z) (t : tables) : option User :=
  find (fun u => user_id u =? id) (Users t).

Definition find_channel (id : Z) (t : tables) : option Channel :=
  find (fun ch => channel_id ch =? id) (Channels t).

Definition find_server (id : Z) (t : tables) : option Server :=
  find (fun sv => server_id sv =? id) (Servers t).

(** The join as the specification words it: the tuple of a membership is
    made of the channel and the server it refers to, when it refers to a
    user with the handle asked for. *)
Definition joined_row (h : string) (t : tables) (m : Mapping)
  : list channel_row :=
  match find_user (mapping_user_id m) t,
        find_channel (mapping_channel_id m) t,
        find_server (mapping_server_id m) t with
  | Some u, Some ch, Some sv =>
      if handle_is h u
      then [(channel_id ch, channel_name ch, server_id sv, server_name sv)]
      else []
  | _, _, _ => []
  end.

Definition memberships_joined (h : string) (t : tables) : list channel_row :=
  flat_map (joined_row h t) (UserChannelMapping t).

(** A membership whose channel or server is not in its table. *)
Definition dangling (t : tables) (m : Mapping) : bool :=
  match find_channel (mapping_channel_id m) t,
        find_server (mapping_server_id m) t with
  | Some _, Some _ => false
  | _, _ => true
  end.

Definition drop_dangling (t : tables) : tables :=
  mkTables (Users t) (Servers t) (Channels t)
           (filter (fun m => negb (dangling t m)) (UserChannelMapping t))
           (seq_Users t) (seq_Servers t) (seq_Channels t)
           (seq_UserChannelMapping t).

(** A tuple made of a channel and a server that are in their tables, for a
    membership that refers to both. *)
Definition complete_row (t : tables) (row : channel_row) : Prop :=
  exists m ch sv,
    In m (UserChannelMapping t) /\ In ch (Channels t) /\ In sv (Servers t)
    /\ channel_id ch = mapping_channel_id m
    /\ server_id sv = mapping_server_id m
    /\ row = (channel_id ch, channel_name ch, server_id sv, server_name sv).

(** A store with a user and one membership whose channel 99 and server 7
    were never added. *)
Definition dangling_store : connection :=
  run [AddUser 0 "carol"; AddServer "S1"; AddChannel "C1" 1;
       MapUserToChannel "carol" 1 1; MapUserToChannel "carol" 99 7]
      (_initialize_database None).

End Spec.

(* ================================================================= *)
(** ** Histories: what calls raise, what they keep, and the clock *)

Module History.
Import Store.

Definition exn_of {A} (r : result A) : option exn :=
  match r with
  | Ok _ => None
  | Raise e => Some e
  end.

(** The exception a call ends with, if it raises. *)
Definition raised (k : call) (c : connection) : option exn :=
  match k with
  | AddUser now h => exn_of (fst (add_user now h c))
  | AddServer name => exn_of (fst (add_server name c))
  | AddChannel name sid => exn_of (fst (add_channel name sid c))
  | MapUserToChannel h cid sid => exn_of (fst (map_user_to_channel h cid sid c))
  | UpdateUserSolvedProblems now h solved =>
      exn_of (fst (update_user_solved_problems now h solved c))
  | GetUserChannels h => exn_of (fst (get_user_channels h c))
  | GetUserIdByHandle h => exn_of (fst (get_user_id_by_handle h c))
  end.

(** [l'] is [l] with rows added at its end. *)
Definition extends {A} (l l' : list A) : Prop := exists more, l' = (l ++ more)%list.

(** What no method ever writes in a row of [Users] once it is inserted. *)
Definition identity (u : User) : Z * string * timestamp :=
  (user_id u, handle u, last_check_time u).

(** The reading of [datetime.now()] that a call takes, if it takes one. *)
Definition clock_reading (k : call) : option timestamp :=
  match k with
  | AddUser now _ => Some now
  | UpdateUserSolvedProblems now _ _ => Some now
  | _ => None
  end.

(** The clock never goes back along the history: every reading is at least
    the one before it, the first at least [last]. *)
Fixpoint clock_ok (last : timestamp) (ks : list call) : bool :=
  match ks with
  | [] => true
  | k :: ks' =>
      match clock_reading k with
      | Some now => (last <=? now) && clock_ok now ks'
      | None => clock_ok last ks'
      end
  end.

(** The memberships of the user with rowid [uid] whose channel and server
    are both in their tables. *)
Definition live_memberships (uid : Z) (t : tables) : list Mapping :=
  filter (fun m => (mapping_user_id m =? uid) && negb (Spec.dangling t m))
         (UserChannelMapping t).

(** Every membership carries the rowid of a row of [Users]. *)
Definition memberships_refer (t : tables) : Prop :=
  forall m, In m (UserChannelMapping t) ->
    exists u, In u (Users t) /\ user_id u = mapping_user_id m.

(** The tables with the [server_id] column of [Channels] rewritten. *)
Definition with_channel_servers (f : Channel -> Z) (t : tables) : tables :=
  mkTables (Users t) (Servers t)
           (map (fun ch => mkChannel (channel_id ch) (channel_name ch) (f ch))
                (Channels t))
           (UserChannelMapping t)
           (seq_Users t) (seq_Servers t) (seq_Channels t)
           (seq_UserChannelMapping t).

End History.

(* ================================================================= *)
(** ** Schedules: turns and the path without the lock *)

Module Schedules.
Import Singleton.

(** How many times the schedule names the invocation [i]. *)
Definition turns (i : nat) (schedule : list nat) : nat :=
  count_occ Nat.eq_dec schedule i.

(** The place of an invocation that finds [_instance] set at line 21,
    after [n] turns: it goes to line 29 and returns. *)
Definition fast_path (n : nat) : pc :=
  match n with
  | 0%nat => CheckInstance
  | 1%nat => Return
  | _ => Returned (Some 0%nat)
  end.

End Schedules.

(* ================================================================= *)
(** ** The instance: context manager and teardown *)

(** The object that [Database()] returns, by the attributes it has.  The
    states between lines 25 and 27 of [db.py], where the connection is open
    and the tables may not be created yet, belong to [__new__] and are not
    among these. *)

Module Lifecycle.
Import Store.

Inductive instance :=
| Bare                        (* line 24: no [connection], no [cursor] *)
| Opened (c : connection)     (* lines 25 to 27 done *)
| Closed (file : tables).     (* [connection.close()] done; what the file holds *)

Inductive error :=
| AttributeError              (* the object has no such attribute *)
| ProgrammingError            (* Cannot operate on a closed database. *)
| Failed (e : exn).           (* what the method raises on an open connection *)

Inductive outcome (A : Type) :=
| Returns (a : A)
| Raises (e : error).
Arguments Returns {A} a.
Arguments Raises {A} e.

(** Lines 25 to 27 on the file [db.sqlite3]. *)
Definition connect_and_initialize (file : option tables) : instance :=
  Opened (_initialize_database file).

(** [self.connection.close()]: what was not committed is lost; closing a
    closed connection does nothing. *)
Definition connection_close (self : instance) : outcome unit * instance :=
  match self with
  | Bare => (Raises AttributeError, Bare)
  | Opened c => (Returns tt, Closed (durable c))
  | Closed file => (Returns tt, Closed file)
  end.

(** [try: ... except AttributeError: pass] *)
Definition except_AttributeError (r : outcome unit * instance)
  : outcome unit * instance :=
  match r with
  | (Raises AttributeError, self) => (Returns tt, self)
  | _ => r
  end.


Definition __enter__ (self : instance) : instance := self.

Definition __exit__ (self : instance) : outcome unit * instance :=
  except_AttributeError (connection_close self).

(** A call as a statement of a script: what it returns is dropped. *)
Definition invoke (k : call) : M unit :=
  match k with
  | AddUser now h => add_user now h
  | AddServer name => add_server name
  | AddChannel name sid => add_channel name sid
  | MapUserToChannel h cid sid => map_user_to_channel h cid sid
  | UpdateUserSolvedProblems now h solved =>
      update_user_solved_problems now h solved
  | GetUserChannels h => get_user_channels h ;;; ret tt
  | GetUserIdByHandle h => get_user_id_by_handle h ;;; ret tt
  end.

(** What evaluating the arguments of the first [self.cursor.execute(...)]
    of a call raises, if it raises: the [json.dumps] among them. *)
Definition argument_error (k : call) : option exn :=
  match k with
  | AddUser _ _ =>
      match Json.dumps [] with
      | Some _ => None
      | None => Some digits_exceeded
      end
  | UpdateUserSolvedProblems _ _ solved =>
      match Json.dumps solved with
      | Some _ => None
      | None => Some digits_exceeded
      end
  | _ => None
  end.

(** A method of [Database] on the instance.  Its first statement is
    [self.cursor.execute(...)]: [self.cursor] is looked up first, then the
    arguments are evaluated, then [execute] finds the connection open or
    closed. *)
Definition method (k : call) (self : instance) : outcome unit * instance :=
  match self with
  | Bare => (Raises AttributeError, Bare)
  | Closed file =>
      match argument_error k with
      | Some e => (Raises (Failed e), Closed file)
      | None => (Raises ProgrammingError, Closed file)
      end
  | Opened c =>
      match invoke k c with
      | (Ok a, c') => (Returns a, Opened c')
      | (Raise e, c') => (Raises (Failed e), Opened c')
      end
  end.

(** Calls one after the other, as in the body of the [with] statement at the
    end of [db.py]: the first exception ends the script. *)
Fixpoint script (ks : list call) (self : instance) : outcome unit * instance :=
  match ks with
  | [] => (Returns tt, self)
  | k :: ks' =>
      match method k self with
      | (Returns _, self') => script ks' self'
      | (Raises e, self') => (Raises e, self')
      end
  end.

(** [with self as db: body(db)].  [__exit__] returns [None], so an exception
    of the body goes on to the caller. *)
Definition with_block {A} (body : instance -> outcome A * instance)
  (self : instance) : outcome A * instance :=
  let db := __enter__ self in
  let (r, self') := body db in
  match __exit__ self' with
  | (Returns _, self'') => (r, self'')
  | (Raises e, self'') => (Raises e, self'')
  end.

(** The calls of a script that returned, up to the first that raised. *)
Fixpoint completed (ks : list call) (c : connection) : list call :=
  match ks with
  | [] => []
  | k :: ks' =>
      match History.raised k c with
      | None => k :: completed ks' (after k c)
      | Some _ => []
      end
  end.

End Lifecycle.

(* ================================================================= *)
(** ** The definitions at work *)

Example dumps_demo :
  Json.dumps [1001; 1002; 1003] = Some "[1001, 1002, 1003]".
Proof. reflexivity. Qed.

Example dumps_empty : Json.dumps [] = Some "[]".
Proof. reflexivity. Qed.

Example loads_spaced :
  Json.loads " [1001, 1002,1003 ] " = Some [1001; 1002; 1003].
Proof. reflexivity. Qed.

Example loads_signed :
  Json.dumps [-5; 0; 5] = Some "[-5, 0, 5]"
  /\ Json.loads "[-5, 0, 5]" = Some [-5; 0; 5].
Proof. split; reflexivity. Qed.

Example loads_leading_zero : Json.loads "[01]" = None.
Proof. reflexivity. Qed.

Example loads_float : Json.loads "[1.5]" = None.
Proof. reflexivity. Qed.

Example loads_trailing_comma : Json.loads "[1, ]" = None.
Proof. reflexivity. Qed.

(** The script at the end of [db.py]. *)
Example demo_users :
  Store.Users (Store.view Spec.demo_store) = [Spec.demo_user].
Proof. vm_compute. reflexivity. Qed.

Example demo_committed :
  Store.durable Spec.demo_store = Store.view Spec.demo_store.
Proof. vm_compute. reflexivity. Qed.

Example demo_user_id :
  fst (Store.get_user_id_by_handle "user1" Spec.demo_store) = Store.Ok (Some 1).
Proof. vm_compute. reflexivity. Qed.

Example missing_user_id :
  fst (Store.get_user_id_by_handle "missing" Spec.demo_store) = Store.Ok None.
Proof. vm_compute. reflexivity. Qed.

Example mapping_nobody :
  Store.map_user_to_channel "nobody" 1 1 Spec.demo_store
  = (Store.Raise (Store.not_found "nobody"), Spec.demo_store).
Proof. vm_compute. reflexivity. Qed.

Example mapping_out_of_range :
  Store.map_user_to_channel "user1" (2 ^ 63) 1 Spec.demo_store
  = (Store.Raise Store.OverflowError, Spec.demo_store).
Proof. vm_compute. reflexivity. Qed.

(** The membership of "carol" in channel 99 of server 7 is in the table and
    not in the answer. *)
Example dangling_membership_stored :
  Store.UserChannelMapping (Store.view Spec.dangling_store)
  = [Store.mkMapping 1 1 1 1; Store.mkMapping 2 1 99 7].
Proof. vm_compute. reflexivity. Qed.

Example dangling_membership_omitted :
  fst (Store.get_user_channels "carol" Spec.dangling_store)
  = Store.Ok [(1, "C1", 1, "S1")].
Proof. vm_compute. reflexivity. Qed.

(** Invocation 0 has made the object and holds the lock; invocation 1
    comes, finds [_instance] set at line 21 and returns the object before
    the connection is opened; invocation 0 then completes the setup. *)
Example early_return :
  let s := Singleton.run [0; 0; 0; 0; 0; 1; 1]%nat Singleton.init in
  Singleton.at_pc s 1%nat = Singleton.Returned (Some 0%nat)
  /\ Singleton._lock s = Some 0%nat
  /\ Singleton.connects s = 0%nat /\ Singleton.bootstraps s = 0%nat.
Proof. vm_compute. repeat split. Qed.

Example early_return_completed :
  let s := Singleton.run [0; 0; 0; 0; 0; 1; 1; 0; 0; 0; 0; 0; 0; 0]%nat
             Singleton.init in
  Singleton.at_pc s 0%nat = Singleton.Returned (Some 0%nat)
  /\ Singleton.at_pc s 1%nat = Singleton.Returned (Some 0%nat)
  /\ Singleton._lock s = None
  /\ Singleton.connects s = 1%nat /\ Singleton.bootstraps s = 1%nat.
Proof. vm_compute. repeat split. Qed.

(** Two invocations both pass line 21 before either takes the lock: the
    second one to take it finds the instance at line 23. *)
Example both_pass_first_check :
  let s := Singleton.run
             [0; 1; 0; 1; 0; 1; 0; 0; 0; 0; 0; 0; 0; 0; 1; 1; 1; 1; 1]%nat
             Singleton.init in
  Singleton.at_pc s 0%nat = Singleton.Returned (Some 0%nat)
  /\ Singleton.at_pc s 1%nat = Singleton.Returned (Some 0%nat)
  /\ Singleton.allocated s = 1%nat
  /\ Singleton.connects s = 1%nat /\ Singleton.bootstraps s = 1%nat.
Proof. vm_compute. repeat split. Qed.

(* ================================================================= *)
(** ** The codec: decoding an encoded list gives the list back *)

Section JsonFacts.
Import Json Spec.

Lemma append_assoc (a b c : string) : (a ++ b) ++ c = a ++ (b ++ c).
Proof. induction a as [|x a IH]; simpl; [reflexivity | now rewrite IH]. Qed.

Lemma length_append (a b : string) :
  String.length (a ++ b) = (String.length a + String.length b)%nat.
Proof. induction a as [|x a IH]; simpl; [reflexivity | now rewrite IH]. Qed.

(** Every character the digits of a number are written with is a digit. *)
Lemma span_digits_uint (d : Decimal.uint) (r : string) :
  item_end r ->
  span_digits (NilEmpty.string_of_uint d ++ r) = (NilEmpty.string_of_uint d, r).
Proof.
  intros [r' [-> | ->]]; induction d; simpl; try reflexivity;
    rewrite IHd; reflexivity.
Qed.

(** A normalised numeral other than zero does not start with the digit 0. *)
Lemma to_uint_head (p : positive) :
  exists c ds,
    NilZero.string_of_uint (Pos.to_uint p) = String c ds
    /\ Ascii.eqb c "0" = false /\ Ascii.eqb c "-" = false /\ is_digit c = true
    /\ is_ws c = false /\ Ascii.eqb c "]" = false
    /\ exists d, ds = NilEmpty.string_of_uint d.
Proof.
  assert (N : Decimal.unorm (Pos.to_uint p) = Pos.to_uint p).
  { rewrite <- (DecimalPos.Unsigned.to_of (Pos.to_uint p)).
    now rewrite DecimalPos.Unsigned.of_to. }
  pose proof (DecimalPos.Unsigned.to_uint_nonzero p) as NZ.
  destruct (Pos.to_uint p) as [|d|d|d|d|d|d|d|d|d|d] eqn:E;
    try (eexists _, _; simpl; repeat split; eexists; reflexivity).
  - now destruct (DecimalPos.Unsigned.to_uint_nonnil p).
  - exfalso. rewrite DecimalFacts.unorm_D0 in N.
    unfold Decimal.unorm in N.
    destruct (Decimal.nzhead d) eqn:H; try discriminate.
    + injection N as <-. now apply NZ.
    + now apply DecimalFacts.nzhead_nonzero in H.
Qed.

Lemma text_head (z : Z) :
  exists c s,
    text z = String c s /\ is_ws c = false /\ Ascii.eqb c "]" = false.
Proof.
  destruct z as [|p|p]; unfold text; simpl.
  - now eexists _, _.
  - destruct (to_uint_head p) as (c & ds & -> & _ & _ & _ & W & B & _).
    now eexists _, _.
  - now eexists _, _.
Qed.

Lemma int_of_token_text (z : Z) :
  within_limit z = true -> int_of_token (text z) = Some z.
Proof.
  unfold int_of_token, within_limit. intros ->. unfold text.
  rewrite NilZero.isi.
  - simpl. now rewrite DecimalZ.of_to.
  - destruct z; simpl; try discriminate.
    intros [= E]. now apply (DecimalPos.Unsigned.to_uint_nonnil p).
  - destruct z; simpl; try discriminate.
    intros [= E]. now apply (DecimalPos.Unsigned.to_uint_nonnil p).
Qed.

Lemma match_integer_text (z : Z) (r : string) :
  item_end r -> match_integer (text z ++ r) = Some (text z, r).
Proof.
  intros Hr. destruct z as [|p|p]; unfold text; simpl Z.to_int;
    unfold NilZero.string_of_int.
  - reflexivity.
  - destruct (to_uint_head p) as (c & ds & -> & Z0 & M & D & _ & _ & d & ->).
    unfold match_integer. simpl. rewrite M, Z0, D.
    now rewrite span_digits_uint.
  - destruct (to_uint_head p) as (c & ds & -> & Z0 & M & D & _ & _ & d & ->).
    unfold match_integer. simpl. rewrite Z0, D.
    now rewrite span_digits_uint.
Qed.

Lemma float_tail_item_end (r : string) : item_end r -> float_tail r = false.
Proof. intros [r' [-> | ->]]; destruct r'; reflexivity. Qed.

Lemma scan_int_text (z : Z) (r : string) :
  item_end r -> within_limit z = true ->
  scan_int (text z ++ r) = Some (z, r).
Proof.
  intros Hr W. unfold scan_int.
  now rewrite (match_integer_text z r Hr), (float_tail_item_end r Hr),
    (int_of_token_text z W).
Qed.

Lemma skip_ws_text (z : Z) (r : string) : skip_ws (text z ++ r) = text z ++ r.
Proof.
  destruct (text_head z) as (c & s & -> & W & _). simpl. now rewrite W.
Qed.

(** The loop of the decoder on the items of an encoded list. *)
Lemma parse_items_join (l : list Z) :
  forall (x : Z) (fuel : nat) (r : string),
    all_within_limit (x :: l) = true ->
    (List.length l < fuel)%nat ->
    parse_items fuel (join_text (x :: l) ++ "]" ++ r) = Some (x :: l, r).
Proof.
  induction l as [|y l IH]; intros x fuel r W Hf;
    (destruct fuel as [|fuel]; [simpl in Hf; lia|]);
    apply andb_prop in W as [Wx W].
  - cbn [join_text parse_items].
    rewrite scan_int_text by (trivial; eexists; right; reflexivity).
    reflexivity.
  - change (join_text (x :: y :: l))
      with (text x ++ ", " ++ join_text (y :: l)).
    rewrite !append_assoc. cbn [parse_items].
    rewrite scan_int_text by (trivial; eexists; left; reflexivity).
    cbn -[join_text parse_items].
    assert (S : skip_ws (join_text (y :: l) ++ String "]" r)
                = join_text (y :: l) ++ "]" ++ r).
    { destruct l; cbn [join_text]; rewrite ?append_assoc;
        apply skip_ws_text. }
    rewrite S, IH by (trivial; simpl in Hf; lia).
    reflexivity.
Qed.

Lemma join_text_length (x : Z) (l : list Z) :
  (List.length l < String.length (join_text (x :: l)))%nat.
Proof.
  revert x. induction l as [|y l IH]; intros x.
  - destruct (text_head x) as (c & s & E & _ & _). cbn [join_text].
    rewrite E. simpl. lia.
  - change (join_text (x :: y :: l))
      with (text x ++ ", " ++ join_text (y :: l)).
    rewrite !length_append. specialize (IH y). simpl. simpl in IH. lia.
Qed.

(** The decoder on the text of a list whose items can all be written. *)
Lemma loads_text (l : list Z) :
  all_within_limit l = true -> loads ("[" ++ join_text l ++ "]") = Some l.
Proof.
  intros W. destruct l as [|x l]; [reflexivity|].
  unfold loads.
  change (skip_ws ("[" ++ join_text (x :: l) ++ "]"))
    with ("[" ++ join_text (x :: l) ++ "]").
  unfold parse_array.
  change ("[" ++ join_text (x :: l) ++ "]")
    with (String "[" (join_text (x :: l) ++ "]")).
  cbn [Ascii.eqb Bool.eqb].
  assert (S : skip_ws (join_text (x :: l) ++ "]") = join_text (x :: l) ++ "]").
  { destruct l; cbn [join_text]; rewrite ?append_assoc; apply skip_ws_text. }
  rewrite S.
  assert (H : exists c s, join_text (x :: l) ++ "]" = String c s
                          /\ Ascii.eqb c "]" = false).
  { destruct (text_head x) as (c & s & E & _ & B).
    destruct l; cbn [join_text]; rewrite E; simpl; now eexists _, _. }
  destruct H as (c & s & E & B).
  rewrite E at 1. rewrite B.
  change (join_text (x :: l) ++ "]") with (join_text (x :: l) ++ "]" ++ "").
  rewrite parse_items_join; [reflexivity|exact W|].
  rewrite length_append. pose proof (join_text_length x l). lia.
Qed.

(** The encoder returns exactly on the lists whose items can all be
    written, and then it returns their text. *)
Lemma join_items_eq (l : list Z) :
  join_items l = if all_within_limit l then Some (join_text l) else None.
Proof.
  induction l as [|x l IH]; [reflexivity|].
  cbn [join_items all_within_limit forallb]. unfold repr.
  destruct (within_limit x); [|reflexivity]. cbn [andb].
  destruct l as [|y l]; [reflexivity|].
  rewrite IH. fold (all_within_limit (y :: l)).
  now destruct (all_within_limit (y :: l)).
Qed.

Lemma dumps_eq (l : list Z) :
  dumps l = if all_within_limit l
            then Some ("[" ++ join_text l ++ "]") else None.
Proof.
  unfold dumps. rewrite join_items_eq. now destruct (all_within_limit l).
Qed.

(** Decoding what the encoder returned gives the list back. *)
Lemma loads_dumps (l : list Z) (t : string) :
  dumps l = Some t -> loads t = Some l.
Proof.
  rewrite dumps_eq. destruct (all_within_limit l) eqn:W; [|discriminate].
  intros [= <-]. now apply loads_text.
Qed.

Lemma usize_length (d : Decimal.uint) :
  DecimalPos.Unsigned.usize d
  = N.of_nat (String.length (NilEmpty.string_of_uint d)).
Proof.
  induction d; cbn [DecimalPos.Unsigned.usize NilEmpty.string_of_uint
                    String.length]; rewrite ?IHd, ?Nat2N.inj_succ; reflexivity.
Qed.

Lemma usize_revapp (d d' : Decimal.uint) :
  DecimalPos.Unsigned.usize (Decimal.revapp d d')
  = (DecimalPos.Unsigned.usize d + DecimalPos.Unsigned.usize d')%N.
Proof.
  revert d'. induction d; intros d'; cbn [Decimal.revapp]; try reflexivity;
    rewrite IHd; cbn [DecimalPos.Unsigned.usize]; lia.
Qed.

Lemma of_lu_bound (d : Decimal.uint) :
  (DecimalPos.Unsigned.of_lu d < 10 ^ DecimalPos.Unsigned.usize d)%N.
Proof.
  induction d; cbn [DecimalPos.Unsigned.of_lu DecimalPos.Unsigned.usize];
    rewrite ?N.pow_succ_r'; try lia.
Qed.

(** The value of a numeral is below the power of ten of its length. *)
Lemma of_uint_upper (d : Decimal.uint) :
  (Pos.of_uint d < 10 ^ DecimalPos.Unsigned.usize d)%N.
Proof.
  rewrite DecimalPos.Unsigned.of_uint_alt.
  pose proof (of_lu_bound (Decimal.rev d)) as B.
  unfold Decimal.rev in B at 2. rewrite usize_revapp in B.
  cbn [DecimalPos.Unsigned.usize] in B. now rewrite N.add_0_r in B.
Qed.

(** A numeral that starts with a digit other than 0 is at least the power
    of ten of the length of the rest. *)
Lemma of_uint_lower (d : Decimal.uint) :
  Decimal.nzhead d = d -> d <> Decimal.Nil ->
  (10 ^ N.pred (DecimalPos.Unsigned.usize d) <= Pos.of_uint d)%N.
Proof.
  intros H NN. rewrite DecimalPos.Unsigned.of_uint_alt.
  destruct d; try (now destruct NN);
    try (unfold Decimal.rev; cbn [Decimal.revapp];
         rewrite DecimalPos.Unsigned.of_lu_revapp;
         cbn [DecimalPos.Unsigned.usize DecimalPos.Unsigned.of_lu];
         rewrite N.pred_succ; lia).
  exfalso. cbn [Decimal.nzhead] in H.
  now apply (DecimalFacts.nzhead_nonzero d d).
Qed.

Lemma of_uint_bounds_pos (p : positive) :
  let n := String.length (NilEmpty.string_of_uint (Pos.to_uint p)) in
  (10 ^ N.pred (N.of_nat n) <= Npos p < 10 ^ N.of_nat n)%N.
Proof.
  intros n. unfold n. rewrite <- usize_length.
  rewrite <- (DecimalPos.Unsigned.of_to p).
  split; [apply of_uint_lower | apply of_uint_upper].
  - assert (N : Decimal.unorm (Pos.to_uint p) = Pos.to_uint p).
    { rewrite <- (DecimalPos.Unsigned.to_of (Pos.to_uint p)).
      now rewrite DecimalPos.Unsigned.of_to. }
    unfold Decimal.unorm in N.
    destruct (Decimal.nzhead (Pos.to_uint p)) eqn:E; trivial.
    now destruct (DecimalPos.Unsigned.to_uint_nonzero p).
  - apply DecimalPos.Unsigned.to_uint_nonnil.
Qed.

Lemma unsigned_length_pos (p : positive) :
  unsigned_length (text (Z.pos p))
  = String.length (NilEmpty.string_of_uint (Pos.to_uint p))
  /\ unsigned_length (text (Z.neg p))
     = String.length (NilEmpty.string_of_uint (Pos.to_uint p)).
Proof.
  unfold text. cbn [Z.to_int NilZero.string_of_int].
  pose proof (DecimalPos.Unsigned.to_uint_nonnil p) as NN.
  assert (E : NilZero.string_of_uint (Pos.to_uint p)
              = NilEmpty.string_of_uint (Pos.to_uint p))
    by (destruct (Pos.to_uint p); try reflexivity; now destruct NN).
  rewrite E. split.
  - destruct (Pos.to_uint p); try (now destruct NN); reflexivity.
  - cbn [unsigned_length]. reflexivity.
Qed.

(** An integer has at most [n] digits exactly when its absolute value is
    below the [n]-th power of ten. *)
Lemma unsigned_length_le (z : Z) (n : nat) :
  (0 < n)%nat ->
  (unsigned_length (text z) <= n)%nat <-> Z.abs z < 10 ^ Z.of_nat n.
Proof.
  intros Hn.
  assert (P : forall p,
    (String.length (NilEmpty.string_of_uint (Pos.to_uint p)) <= n)%nat
    <-> Z.pos p < 10 ^ Z.of_nat n).
  { intros p. destruct (of_uint_bounds_pos p) as [L U].
    set (m := String.length (NilEmpty.string_of_uint (Pos.to_uint p))) in *.
    rewrite <- (N2Z.inj_pos p), <- nat_N_Z.
    change 10 with (Z.of_N 10). rewrite <- N2Z.inj_pow, <- N2Z.inj_lt.
    split; intros H.
    - eapply N.lt_le_trans; [exact U|]. apply N.pow_le_mono_r; lia.
    - destruct (Nat.le_gt_cases m n) as [|G]; [assumption|exfalso].
      assert (10 ^ N.of_nat n <= 10 ^ N.pred (N.of_nat m))%N
        by (apply N.pow_le_mono_r; lia).
      lia. }
  destruct z as [|p|p].
  - cbn. split; intros _; [apply Z.pow_pos_nonneg; lia | lia].
  - rewrite (proj1 (unsigned_length_pos p)). cbn [Z.abs]. apply P.
  - rewrite (proj2 (unsigned_length_pos p)). cbn [Z.abs]. apply P.
Qed.

(** The limit on the digits, as a bound on the absolute value. *)
Lemma within_limit_spec (z : Z) : within_limit z = (Z.abs z <? 10 ^ 4300).
Proof.
  unfold within_limit.
  pose proof (unsigned_length_le z max_str_digits (Nat.lt_0_succ _)) as H.
  change (Z.of_nat max_str_digits) with 4300 in H.
  destruct (Nat.leb_spec (unsigned_length (text z)) max_str_digits) as [L|L],
           (Z.ltb_spec (Z.abs z) (10 ^ 4300)) as [B|B]; trivial; exfalso.
  - apply H in L. now apply Z.lt_nge in L.
  - apply H in B. now apply Nat.lt_nge in L.
Qed.

Lemma ten_to_4300_beyond_limit : within_limit (10 ^ 4300) = false.
Proof.
  rewrite within_limit_spec, Z.abs_eq by (now apply Z.pow_nonneg).
  apply Z.ltb_irrefl.
Qed.

(** The largest number of 4300 digits, with a minus sign, can be written;
    the number after it, of 4301 digits, cannot. *)
Example dumps_at_limit : dumps [1 - 10 ^ 4300] <> None.
Proof.
  rewrite dumps_eq. unfold all_within_limit. cbn [forallb].
  rewrite within_limit_spec.
  assert (P : 0 < 10 ^ 4300) by (now apply Z.pow_pos_nonneg).
  set (B := 10 ^ 4300) in *.
  assert (L : Z.abs (1 - B) < B) by lia.
  apply Z.ltb_lt in L. rewrite L. discriminate.
Qed.

Example dumps_over_limit : dumps [1; 10 ^ 4300] = None.
Proof.
  rewrite dumps_eq. unfold all_within_limit. cbn [forallb].
  now rewrite ten_to_4300_beyond_limit, andb_false_r.
Qed.

(** The decoder has the same limit: the text of a number it cannot
    convert is not decoded. *)
Lemma loads_beyond_limit (z : Z) :
  within_limit z = false -> loads ("[" ++ text z ++ "]") = None.
Proof.
  intros W. unfold loads.
  change (skip_ws ("[" ++ text z ++ "]")) with ("[" ++ text z ++ "]").
  unfold parse_array.
  change ("[" ++ text z ++ "]") with (String "[" (text z ++ "]")).
  cbn [Ascii.eqb Bool.eqb]. rewrite skip_ws_text.
  assert (S : scan_int (text z ++ "]") = None).
  { unfold scan_int.
    rewrite match_integer_text by (exists ""; now right).
    cbn [float_tail]. unfold int_of_token.
    unfold within_limit in W. now rewrite W. }
  destruct (text_head z) as (c & r & E & _ & B).
  rewrite E at 1. cbn [append]. rewrite B.
  rewrite E at 1. cbn [append String.length parse_items]. now rewrite S.
Qed.

End JsonFacts.

(* ================================================================= *)
(** ** The store: what the methods do to a connection *)

Section StoreFacts.
Import Store Spec.

(** *** The methods, statement by statement *)

Lemma add_user_duplicate now h c :
  existsb (handle_is h) (Users (view c)) = true ->
  add_user now h c
  = (Raise (IntegrityError "UNIQUE constraint failed: Users.handle"), c).
Proof.
  intros E. unfold add_user, bind, json_dumps, ret, statement, insert_user.
  cbn [Json.dumps Json.join_items]. now rewrite E.
Qed.

Lemma add_user_fresh now h c :
  existsb (handle_is h) (Users (view c)) = false ->
  add_user now h c
  = let t := view c in
    let id := next_rowid user_id (Users t) (seq_Users t) in
    let t' := mkTables (Users t ++ [mkUser id h 0 "[]" now now])
                (Servers t) (Channels t) (UserChannelMapping t)
                id (seq_Servers t) (seq_Channels t)
                (seq_UserChannelMapping t) in
    (Ok tt, mkConnection t' t').
Proof.
  intros E. unfold add_user, bind, json_dumps, ret, statement, insert_user.
  cbn [Json.dumps Json.join_items]. now rewrite E.
Qed.

Lemma update_user_solved_problems_eq now h solved c :
  update_user_solved_problems now h solved c
  = match Json.dumps solved with
    | Some text =>
        let t := view c in
        let t' := mkTables
                    (map (fun u => if handle_is h u
                                   then set_solved
                                          (Z.of_nat (List.length solved))
                                          text now u
                                   else u) (Users t))
                    (Servers t) (Channels t) (UserChannelMapping t)
                    (seq_Users t) (seq_Servers t) (seq_Channels t)
                    (seq_UserChannelMapping t) in
        (Ok tt, mkConnection t' t')
    | None => (Raise digits_exceeded, c)
    end.
Proof.
  unfold update_user_solved_problems, bind, json_dumps.
  now destruct (Json.dumps solved).
Qed.

Lemma map_user_to_channel_unknown h cid sid c :
  find (handle_is h) (Users (view c)) = None ->
  map_user_to_channel h cid sid c = (Raise (not_found h), c).
Proof.
  intros E.
  unfold map_user_to_channel, bind, get_user_id_by_handle, statement,
    select_user_id.
  rewrite E. destruct c; reflexivity.
Qed.

Lemma map_user_to_channel_known h cid sid c u :
  find (handle_is h) (Users (view c)) = Some u ->
  map_user_to_channel h cid sid c
  = if fits_int64 cid && fits_int64 sid
    then
      let t := view c in
      let id := next_rowid mapping_id (UserChannelMapping t)
                  (seq_UserChannelMapping t) in
      let t' := mkTables (Users t) (Servers t) (Channels t)
                  (UserChannelMapping t ++ [mkMapping id (user_id u) cid sid])
                  (seq_Users t) (seq_Servers t) (seq_Channels t) id in
      (Ok tt, mkConnection t' t')
    else (Raise OverflowError, c).
Proof.
  intros E.
  unfold map_user_to_channel, bind, get_user_id_by_handle, statement,
    select_user_id, insert_mapping.
  rewrite E. destruct c as [v d]; simpl.
  destruct (fits_int64 cid && fits_int64 sid); reflexivity.
Qed.

Lemma handle_is_true h u : handle_is h u = true <-> handle u = h.
Proof. apply String.eqb_eq. Qed.

Lemma handle_is_false h u : handle_is h u = false <-> handle u <> h.
Proof. apply String.eqb_neq. Qed.

Lemma existsb_handle h us :
  existsb (handle_is h) us = true <-> exists u, In u us /\ handle u = h.
Proof.
  rewrite existsb_exists.
  split; intros (u & I & E); exists u; split; trivial;
    now apply handle_is_true.
Qed.

Lemma find_handle_none h us :
  find (handle_is h) us = None <-> forall u, In u us -> handle u <> h.
Proof.
  split.
  - intros E u I. apply handle_is_false. now apply (find_none _ _ E).
  - intros H. induction us as [|u us IH]; [reflexivity|]. simpl.
    destruct (handle_is h u) eqn:E.
    + apply handle_is_true in E. now destruct (H u (or_introl eq_refl)).
    + apply IH. intros v I. apply H. now right.
Qed.

(** *** The invariants hold in every state of the store *)

Lemma keys_ok_nil {R} (key : R -> Z) : keys_ok key [] 0.
Proof. split; [lia | split; [constructor | intros r []]]. Qed.

Lemma next_rowid_seq {R} (key : R -> Z) rows seq :
  keys_ok key rows seq -> next_rowid key rows seq = seq + 1.
Proof.
  intros (P & _ & B). unfold next_rowid. f_equal. apply Z.max_l.
  induction rows as [|r rows IH]; simpl; [exact P|].
  apply Z.max_lub.
  - specialize (B r (or_introl eq_refl)). lia.
  - apply IH. intros x I. apply B. now right.
Qed.

Lemma keys_ok_snoc {R} (key : R -> Z) rows seq r :
  keys_ok key rows seq -> key r = next_rowid key rows seq ->
  keys_ok key (rows ++ [r]) (next_rowid key rows seq).
Proof.
  intros W. rewrite (next_rowid_seq key rows seq W).
  destruct W as (P & N & B). intros K. split; [lia|split].
  - rewrite map_app. simpl.
    apply NoDup_app; try assumption.
    + repeat constructor. intros [].
    + intros k I [<-|[]]. apply in_map_iff in I as (r' & E & I).
      specialize (B r' I). lia.
  - intros r' I. apply in_app_iff in I as [I|[<-|[]]].
    + specialize (B r' I). lia.
    + lia.
Qed.

Lemma same_connection c : mkConnection (view c) (durable c) = c.
Proof. now destruct c. Qed.

Lemma get_user_channels_eq h c :
  get_user_channels h c = (Ok (select_user_channels h (view c)), c).
Proof.
  unfold get_user_channels, statement. now rewrite same_connection.
Qed.

Lemma get_user_id_by_handle_eq h c :
  get_user_id_by_handle h c
  = (Ok (option_map user_id (find (handle_is h) (Users (view c)))), c).
Proof.
  unfold get_user_id_by_handle, statement, select_user_id.
  now rewrite same_connection.
Qed.

Lemma well_formed_init : well_formed (_initialize_database None).
Proof.
  split; simpl; try apply keys_ok_nil; try constructor.
  intros u [].
Qed.

Lemma well_formed_add_user now h c :
  well_formed c -> well_formed (snd (add_user now h c)).
Proof.
  intros W. destruct (existsb (handle_is h) (Users (view c))) eqn:E.
  - now rewrite add_user_duplicate.
  - rewrite add_user_fresh by assumption. destruct W. split; simpl; trivial.
    + rewrite map_app. simpl. apply NoDup_app; try assumption.
      * repeat constructor. intros [].
      * intros k I [<-|[]]. apply in_map_iff in I as (u & Eu & I).
        assert (X : existsb (handle_is (handle u)) (Users (view c)) = true)
          by (apply existsb_handle; eauto).
        congruence.
    + now apply keys_ok_snoc.
    + intros u I. apply in_app_iff in I as [I|[<-|[]]]; [now apply wf_counts0|].
      now exists [].
Qed.

Lemma well_formed_add_server name c :
  well_formed c -> well_formed (snd (add_server name c)).
Proof.
  intros []. split; simpl; trivial. now apply keys_ok_snoc.
Qed.

Lemma well_formed_add_channel name sid c :
  well_formed c -> well_formed (snd (add_channel name sid c)).
Proof.
  intros W. unfold add_channel, bind, statement, insert_channel.
  destruct (fits_int64 sid); [|assumption].
  destruct W. split; simpl; trivial. now apply keys_ok_snoc.
Qed.

Lemma well_formed_map_user_to_channel h cid sid c :
  well_formed c -> well_formed (snd (map_user_to_channel h cid sid c)).
Proof.
  intros W. destruct (find (handle_is h) (Users (view c))) as [u|] eqn:E.
  - rewrite (map_user_to_channel_known _ _ _ _ _ E).
    destruct (fits_int64 cid && fits_int64 sid); [|assumption].
    destruct W. split; simpl; trivial.
  - now rewrite map_user_to_channel_unknown.
Qed.

Lemma map_update_handle h f us :
  (forall u, handle (f u) = handle u) ->
  map handle (map (fun u => if handle_is h u then f u else u) us)
  = map handle us.
Proof.
  intros H. rewrite map_map. apply map_ext. intros u.
  now destruct (handle_is h u).
Qed.

Lemma map_update_id h f us :
  (forall u, user_id (f u) = user_id u) ->
  map user_id (map (fun u => if handle_is h u then f u else u) us)
  = map user_id us.
Proof.
  intros H. rewrite map_map. apply map_ext. intros u.
  now destruct (handle_is h u).
Qed.

Lemma well_formed_update now h solved c :
  well_formed c ->
  well_formed (snd (update_user_solved_problems now h solved c)).
Proof.
  intros W. rewrite update_user_solved_problems_eq.
  destruct (Json.dumps solved) as [text|] eqn:D; [|exact W].
  destruct W. split; simpl; trivial.
  - now rewrite map_update_handle.
  - destruct wf_users0 as (P & N & B). split; [assumption|split].
    + now rewrite map_update_id.
    + intros u I. apply in_map_iff in I as (v & <- & I).
      specialize (B v I). now destruct (handle_is h v).
  - intros u I. apply in_map_iff in I as (v & <- & I).
    destruct (handle_is h v); [|now apply wf_counts0].
    exists solved. simpl. now rewrite (loads_dumps solved text D).
Qed.

Lemma well_formed_after k c : well_formed c -> well_formed (after k c).
Proof.
  destruct k; cbn [after].
  - apply well_formed_add_user.
  - apply well_formed_add_server.
  - apply well_formed_add_channel.
  - apply well_formed_map_user_to_channel.
  - apply well_formed_update.
  - now rewrite get_user_channels_eq.
  - now rewrite get_user_id_by_handle_eq.
Qed.

Lemma well_formed_run ks : forall c, well_formed c -> well_formed (run ks c).
Proof.
  induction ks as [|k ks IH]; intros c W; [assumption|].
  apply IH, well_formed_after, W.
Qed.

Lemma reachable_well_formed c : reachable c -> well_formed c.
Proof. intros [ks ->]. apply well_formed_run, well_formed_init. Qed.

(** *** The claims about single calls *)

Lemma filter_none {A} (f : A -> bool) (l : list A) :
  (forall x, In x l -> f x = false) -> filter f l = [].
Proof.
  induction l as [|x l IH]; intros H; [reflexivity|]. simpl.
  rewrite (H x (or_introl eq_refl)). apply IH. intros y I. apply H. now right.
Qed.

Lemma unique_handle_count h us u :
  NoDup (map handle us) -> In u us -> handle u = h ->
  List.length (filter (handle_is h) us) = 1%nat.
Proof.
  induction us as [|v us IH]; intros N I E; [destruct I|].
  simpl in N. inversion N as [|? ? NI N']; subst. simpl.
  destruct I as [->|I].
  - rewrite (proj2 (handle_is_true _ _) eq_refl). simpl. f_equal.
    assert (F : filter (handle_is (handle u)) us = []); [|now rewrite F].
    apply filter_none. intros w Iw.
    destruct (handle_is (handle u) w) eqn:X; [|reflexivity].
    apply handle_is_true in X. destruct NI. rewrite <- X. now apply in_map.
  - destruct (handle_is (handle u) v) eqn:X.
    + apply handle_is_true in X. destruct NI. rewrite X. now apply in_map.
    + now apply IH.
Qed.

(** C2. In every state the store can reach, the [solved_count] of every
    row of [Users] is the length of the list that its [solved_problems]
    text decodes to. *)
Theorem solved_count_is_length (c : connection) (u : User) :
  reachable c -> In u (Users (view c)) ->
  exists l, Json.loads (solved_problems u) = Some l
            /\ solved_count u = Z.of_nat (List.length l).
Proof.
  intros R I. exact (wf_counts _ (reachable_well_formed _ R) u I).
Qed.

Lemma solved_count_is_length_witness :
  reachable demo_store /\ In demo_user (Users (view demo_store))
  /\ exists l, Json.loads (solved_problems demo_user) = Some l
               /\ solved_count demo_user = Z.of_nat (List.length l).
Proof.
  assert (R : reachable demo_store) by (exists demo; reflexivity).
  assert (I : In demo_user (Users (view demo_store))) by (left; reflexivity).
  exact (conj R (conj I (solved_count_is_length demo_store demo_user R I))).
Defined.

(** C3. When a row of [Users] already has the handle, [add_user] raises the
    integrity error of the [UNIQUE] constraint, the connection is as it was
    before the call, and exactly one row has the handle. *)
Theorem add_user_duplicate_fails (now : timestamp) (h : string)
  (c : connection) :
  reachable c ->
  (exists u, In u (Users (view c)) /\ handle u = h) ->
  (exists msg, fst (add_user now h c) = Raise (IntegrityError msg))
  /\ snd (add_user now h c) = c
  /\ List.length (users_with h (snd (add_user now h c))) = 1%nat.
Proof.
  intros R (u & I & E).
  rewrite add_user_duplicate by (apply existsb_handle; eauto).
  split; [eexists; reflexivity|]. split; [reflexivity|].
  apply (unique_handle_count h _ u); trivial.
  apply wf_handles, reachable_well_formed, R.
Qed.

Lemma add_user_duplicate_fails_witness :
  reachable demo_store
  /\ (exists u, In u (Users (view demo_store)) /\ handle u = "user1")
  /\ (exists msg, fst (add_user 2 "user1" demo_store)
                  = Raise (IntegrityError msg))
  /\ snd (add_user 2 "user1" demo_store) = demo_store
  /\ List.length (users_with "user1" (snd (add_user 2 "user1" demo_store)))
     = 1%nat.
Proof.
  assert (R : reachable demo_store) by (exists demo; reflexivity).
  assert (X : exists u, In u (Users (view demo_store)) /\ handle u = "user1")
    by (exists demo_user; split; [left|]; reflexivity).
  exact (conj R (conj X (add_user_duplicate_fails 2 "user1" demo_store R X))).
Defined.

(** C4, as the code has it.  For a handle that some row has and a list
    [solved] whose items all have at most 4300 digits, after
    [update_user_solved_problems] the call has returned, a row with the
    handle is still there, and every such row holds the length of [solved]
    as its count and a text that decodes to [solved] itself: same items,
    same order, same repetitions.  For a list with an item of more digits,
    [json.dumps] raises before the statement is executed and the connection
    is as it was. *)
Theorem update_round_trip (now : timestamp) (h : string) (solved : list Z)
  (c : connection) :
  (exists u, In u (Users (view c)) /\ handle u = h) ->
  (all_within_limit solved = true ->
   fst (update_user_solved_problems now h solved c) = Ok tt
   /\ users_with h (snd (update_user_solved_problems now h solved c)) <> []
   /\ forall u,
        In u (users_with h
                (snd (update_user_solved_problems now h solved c))) ->
        solved_count u = Z.of_nat (List.length solved)
        /\ Json.loads (solved_problems u) = Some solved)
  /\ (all_within_limit solved = false ->
      update_user_solved_problems now h solved c
      = (Raise digits_exceeded, c)).
Proof.
  intros (u0 & I0 & E0). rewrite update_user_solved_problems_eq, dumps_eq.
  split; intros W; rewrite W; [|reflexivity].
  cbn [fst snd]. split; [reflexivity|]. unfold users_with. cbn [view Users].
  set (text := "[" ++ join_text solved ++ "]").
  split.
  - intros F.
    assert (X : In (set_solved (Z.of_nat (List.length solved)) text now u0)
                   (filter (handle_is h)
                      (map (fun u => if handle_is h u
                                     then set_solved
                                            (Z.of_nat (List.length solved))
                                            text now u
                                     else u) (Users (view c))))).
    { apply filter_In. split.
      - apply in_map_iff. exists u0. split; [|assumption].
        now rewrite (proj2 (handle_is_true h u0) E0).
      - now apply handle_is_true. }
    rewrite F in X. destruct X.
  - intros u I. apply filter_In in I as (I & E).
    apply in_map_iff in I as (v & <- & I).
    destruct (handle_is h v) eqn:X; [|congruence].
    cbn [set_solved solved_count solved_problems].
    split; [reflexivity | now apply loads_text].
Qed.

Lemma update_round_trip_witness :
  (exists u, In u (Users (view demo_store)) /\ handle u = "user1")
  /\ (all_within_limit [3; 1; 3; -2] = true ->
      fst (update_user_solved_problems 5 "user1" [3; 1; 3; -2] demo_store)
      = Ok tt
      /\ users_with "user1"
           (snd (update_user_solved_problems 5 "user1" [3; 1; 3; -2]
                   demo_store))
         <> []
      /\ forall u,
           In u (users_with "user1"
                   (snd (update_user_solved_problems 5 "user1" [3; 1; 3; -2]
                           demo_store))) ->
           solved_count u = Z.of_nat (List.length [3; 1; 3; -2])
           /\ Json.loads (solved_problems u) = Some [3; 1; 3; -2])
  /\ (all_within_limit [3; 1; 3; -2] = false ->
      update_user_solved_problems 5 "user1" [3; 1; 3; -2] demo_store
      = (Raise digits_exceeded, demo_store)).
Proof.
  assert (X : exists u, In u (Users (view demo_store)) /\ handle u = "user1")
    by (exists demo_user; split; [left|]; reflexivity).
  exact (conj X (update_round_trip 5 "user1" [3; 1; 3; -2] demo_store X)).
Defined.

(** The text of a number of 4301 digits is not written. *)
Lemma dumps_ten_to_4300 : Json.dumps [10 ^ 4300] = None.
Proof.
  rewrite dumps_eq. unfold all_within_limit. cbn [forallb].
  now rewrite ten_to_4300_beyond_limit.
Qed.

(** An update with that number raises and writes nothing. *)
Example update_over_limit :
  update_user_solved_problems 5 "user1" [10 ^ 4300] demo_store
  = (Raise digits_exceeded, demo_store).
Proof.
  now rewrite update_user_solved_problems_eq, dumps_ten_to_4300.
Qed.

(** C4, as the specification words it, fails: for the user of the script
    and the list that holds the number 10 to the power 4300, which has 4301
    digits, the call raises and the row keeps its count of 3, which is not
    the length of the list. *)
Lemma update_over_limit_stores_nothing :
  ~ (forall (now : timestamp) (h : string) (solved : list Z)
            (c : connection),
       (exists u, In u (Users (view c)) /\ handle u = h) ->
       fst (update_user_solved_problems now h solved c) = Ok tt
       /\ forall u,
            In u (users_with h
                    (snd (update_user_solved_problems now h solved c))) ->
            solved_count u = Z.of_nat (List.length solved)
            /\ Json.loads (solved_problems u) = Some solved).
Proof.
  intros H.
  assert (X : exists u, In u (Users (view demo_store)) /\ handle u = "user1")
    by (exists demo_user; split; [left|]; reflexivity).
  destruct (H 5 "user1" [10 ^ 4300] demo_store X) as [E _].
  rewrite update_user_solved_problems_eq, dumps_ten_to_4300 in E.
  discriminate E.
Qed.

(** C5. [map_user_to_channel] raises its not-found error exactly when no
    row of [Users] has the handle, and then the connection, its
    [UserChannelMapping] table included, is as it was before the call. *)
Theorem map_user_to_channel_not_found (h : string) (cid sid : Z)
  (c : connection) :
  ((exists msg, fst (map_user_to_channel h cid sid c) = Raise (ValueError msg))
   <-> (forall u, In u (Users (view c)) -> handle u <> h))
  /\ ((forall u, In u (Users (view c)) -> handle u <> h) ->
      map_user_to_channel h cid sid c = (Raise (not_found h), c)).
Proof.
  split; [split|].
  - intros (msg & E).
    destruct (find (handle_is h) (Users (view c))) as [u|] eqn:F.
    + rewrite (map_user_to_channel_known _ _ _ _ _ F) in E.
      destruct (fits_int64 cid && fits_int64 sid); discriminate.
    + now apply find_handle_none.
  - intros H. apply find_handle_none in H.
    rewrite map_user_to_channel_unknown by assumption. eexists. reflexivity.
  - intros H. apply find_handle_none in H.
    now apply map_user_to_channel_unknown.
Qed.

(** C6, as the code has it.  For a handle that no row of [Users] has,
    [update_user_solved_problems] leaves the connection as it was before
    the call; it returns without raising when every item of the list has
    at most 4300 digits, and raises the [ValueError] of [json.dumps] when an
    item has more. *)
Theorem update_unknown_handle_noop (now : timestamp) (h : string)
  (solved : list Z) (c : connection) :
  reachable c ->
  (forall u, In u (Users (view c)) -> handle u <> h) ->
  snd (update_user_solved_problems now h solved c) = c
  /\ (all_within_limit solved = true ->
      update_user_solved_problems now h solved c = (Ok tt, c))
  /\ (all_within_limit solved = false ->
      update_user_solved_problems now h solved c
      = (Raise digits_exceeded, c)).
Proof.
  intros R H. rewrite update_user_solved_problems_eq, dumps_eq.
  assert (E : forall text,
    (let t := view c in
     let t' := mkTables
                 (map (fun u => if handle_is h u
                                then set_solved
                                       (Z.of_nat (List.length solved))
                                       text now u
                                else u) (Users t))
                 (Servers t) (Channels t) (UserChannelMapping t)
                 (seq_Users t) (seq_Servers t) (seq_Channels t)
                 (seq_UserChannelMapping t) in
     (Ok tt, mkConnection t' t')) = (Ok tt, c)).
  { intros text. cbn zeta.
    assert (M : map (fun u => if handle_is h u
                              then set_solved
                                     (Z.of_nat (List.length solved))
                                     text now u
                              else u) (Users (view c)) = Users (view c)).
    { rewrite <- (map_id (Users (view c))) at 2. apply map_ext_in.
      intros u I. now rewrite (proj2 (handle_is_false h u) (H u I)). }
    rewrite M. pose proof (wf_committed _ (reachable_well_formed _ R)) as D.
    destruct c as [v d]. simpl in *. subst d. now destruct v. }
  destruct (all_within_limit solved).
  - rewrite E. repeat split. discriminate.
  - repeat split. discriminate.
Qed.

Lemma update_unknown_handle_noop_witness :
  reachable demo_store
  /\ (forall u, In u (Users (view demo_store)) -> handle u <> "nobody")
  /\ snd (update_user_solved_problems 7 "nobody" [1; 2] demo_store)
     = demo_store
  /\ (all_within_limit [1; 2] = true ->
      update_user_solved_problems 7 "nobody" [1; 2] demo_store
      = (Ok tt, demo_store))
  /\ (all_within_limit [1; 2] = false ->
      update_user_solved_problems 7 "nobody" [1; 2] demo_store
      = (Raise digits_exceeded, demo_store)).
Proof.
  assert (R : reachable demo_store) by (exists demo; reflexivity).
  assert (H : forall u, In u (Users (view demo_store)) -> handle u <> "nobody")
    by (intros u [<-|[]]; discriminate).
  exact (conj R (conj H
           (update_unknown_handle_noop 7 "nobody" [1; 2] demo_store R H))).
Defined.

(** C6, as the specification words it, fails: for a handle that no row
    has and the list that holds the number 10 to the power 4300, the call
    raises. *)
Lemma update_unknown_handle_raises_over_limit :
  ~ (forall (now : timestamp) (h : string) (solved : list Z)
            (c : connection),
       reachable c ->
       (forall u, In u (Users (view c)) -> handle u <> h) ->
       update_user_solved_problems now h solved c = (Ok tt, c)).
Proof.
  intros H.
  assert (R : reachable demo_store) by (exists demo; reflexivity).
  assert (N : forall u, In u (Users (view demo_store)) -> handle u <> "nobody")
    by (intros u [<-|[]]; discriminate).
  specialize (H 7 "nobody" [10 ^ 4300] demo_store R N).
  rewrite update_user_solved_problems_eq, dumps_ten_to_4300 in H.
  discriminate H.
Qed.

(** C8. [update_user_solved_problems] leaves the tables [Servers],
    [Channels] and [UserChannelMapping] as they were, and row by row of
    [Users] it keeps the id, the handle and [last_check_time], and keeps the
    whole row when its handle is another one. *)
Theorem update_frame (now : timestamp) (h : string) (solved : list Z)
  (c : connection) :
  Forall2 (update_frame_row h)
    (Users (view c))
    (Users (view (snd (update_user_solved_problems now h solved c))))
  /\ Servers (view (snd (update_user_solved_problems now h solved c)))
     = Servers (view c)
  /\ Channels (view (snd (update_user_solved_problems now h solved c)))
     = Channels (view c)
  /\ UserChannelMapping
       (view (snd (update_user_solved_problems now h solved c)))
     = UserChannelMapping (view c).
Proof.
  rewrite update_user_solved_problems_eq.
  destruct (Json.dumps solved) as [text|];
    cbn [snd view Users Servers Channels UserChannelMapping]; repeat split.
  - induction (Users (view c)) as [|u us IH]; constructor; [|exact IH].
    unfold update_frame_row. destruct (handle_is h u) eqn:E.
    + apply handle_is_true in E. cbn. intuition congruence.
    + intuition.
  - induction (Users (view c)) as [|u us IH]; constructor; [|exact IH].
    unfold update_frame_row. intuition.
Qed.

(** *** The query of [get_user_channels] *)

Lemma flat_map_nil {A B} (f : A -> list B) (l : list A) :
  (forall x, In x l -> f x = []) -> flat_map f l = [].
Proof.
  induction l as [|x l IH]; intros H; [reflexivity|]. simpl.
  rewrite (H x (or_introl eq_refl)). apply IH. intros y I. apply H. now right.
Qed.

(** A join on a column without repeated values picks at most one row. *)
Lemma flat_map_key {R B} (key : R -> Z) (k : Z) (f : R -> list B)
  (rows : list R) :
  NoDup (map key rows) ->
  flat_map (fun r => if key r =? k then f r else []) rows
  = match find (fun r => key r =? k) rows with
    | Some r => f r
    | None => []
    end.
Proof.
  induction rows as [|r rows IH]; intros N; [reflexivity|].
  simpl in N. inversion N as [|? ? NI N']; subst. simpl.
  destruct (key r =? k) eqn:E.
  - rewrite flat_map_nil; [apply List.app_nil_r|].
    intros x I. destruct (key x =? k) eqn:X; [|reflexivity].
    apply Z.eqb_eq in E, X. destruct NI. rewrite E, <- X. now apply in_map.
  - now apply IH.
Qed.

Lemma flat_map_filter {A B} (p : A -> bool) (f : A -> list B) (l : list A) :
  (forall x, In x l -> p x = false -> f x = []) ->
  flat_map f (filter p l) = flat_map f l.
Proof.
  induction l as [|x l IH]; intros H; [reflexivity|]. simpl.
  destruct (p x) eqn:E; simpl.
  - f_equal. apply IH. intros y I. apply H. now right.
  - rewrite (H x (or_introl eq_refl) E). apply IH. intros y I. apply H.
    now right.
Qed.

(** On tables whose rowids are not repeated, the query is the join of the
    specification. *)
Lemma select_user_channels_joined h t :
  NoDup (map user_id (Users t)) ->
  NoDup (map channel_id (Channels t)) ->
  NoDup (map server_id (Servers t)) ->
  select_user_channels h t = memberships_joined h t.
Proof.
  intros NU NC NS. unfold select_user_channels, memberships_joined.
  apply flat_map_ext. intros m. unfold joined_row.
  rewrite (flat_map_key user_id) by assumption.
  fold (find_user (mapping_user_id m) t).
  destruct (find_user (mapping_user_id m) t) as [u|]; [|reflexivity].
  rewrite (flat_map_key channel_id) by assumption.
  fold (find_channel (mapping_channel_id m) t).
  destruct (find_channel (mapping_channel_id m) t) as [ch|]; [|reflexivity].
  rewrite (flat_map_key server_id) by assumption.
  fold (find_server (mapping_server_id m) t).
  now destruct (find_server (mapping_server_id m) t).
Qed.

(** C7. In every state the store can reach, [get_user_channels] returns,
    without raising and without changing the connection, the tuples of the
    join of the memberships with [Users], [Channels] and [Servers] for the
    handle, in the order of the memberships; the result is empty when no
    user has the handle and when the user has no membership. *)
Theorem get_user_channels_is_join (h : string) (c : connection) :
  reachable c ->
  get_user_channels h c = (Ok (memberships_joined h (view c)), c)
  /\ ((forall u, In u (Users (view c)) -> handle u <> h) ->
      memberships_joined h (view c) = [])
  /\ (forall u, In u (Users (view c)) -> handle u = h ->
      (forall m, In m (UserChannelMapping (view c)) ->
                 mapping_user_id m <> user_id u) ->
      memberships_joined h (view c) = []).
Proof.
  intros R. pose proof (reachable_well_formed _ R) as W.
  destruct W as [_ NH (_ & NU & _) (_ & NS & _) (_ & NC & _) _].
  split; [|split].
  - rewrite get_user_channels_eq.
    now rewrite select_user_channels_joined.
  - intros H. apply flat_map_nil. intros m _. unfold joined_row.
    destruct (find_user (mapping_user_id m) (view c)) as [u|] eqn:F;
      [|reflexivity].
    apply find_some in F as [I _].
    rewrite (proj2 (handle_is_false h u) (H u I)).
    destruct (find_channel _ _); [destruct (find_server _ _)|]; reflexivity.
  - intros u I E H. apply flat_map_nil. intros m Im. unfold joined_row.
    destruct (find_user (mapping_user_id m) (view c)) as [v|] eqn:F;
      [|reflexivity].
    apply find_some in F as [Iv K]. apply Z.eqb_eq in K.
    destruct (handle_is h v) eqn:X;
      [|destruct (find_channel _ _); [destruct (find_server _ _)|];
        reflexivity].
    apply handle_is_true in X. exfalso. apply (H m Im). rewrite <- K.
    f_equal.
    (* two rows with the same handle are the same row *)
    clear - NH I Iv E X. subst h.
    induction (Users (view c)) as [|w us IH]; [destruct I|].
    simpl in NH. inversion NH as [|? ? NI N']; subst.
    destruct I as [->|I], Iv as [->|Iv]; trivial.
    + destruct NI. rewrite <- X. now apply in_map.
    + destruct NI. rewrite X. now apply in_map.
    + now apply IH.
Qed.

Lemma get_user_channels_is_join_witness :
  reachable demo_store
  /\ get_user_channels "user1" demo_store
     = (Ok [(1, "Channel1", 1, "Server1"); (2, "Channel2", 1, "Server1");
            (3, "Channel3", 2, "Server2")], demo_store).
Proof.
  assert (R : reachable demo_store) by (exists demo; reflexivity).
  exact (conj R (proj1 (get_user_channels_is_join "user1" demo_store R))).
Defined.

Lemma dangling_contributes_nothing h t m :
  dangling t m = true ->
  flat_map (fun u =>
    if user_id u =? mapping_user_id m then
      flat_map (fun ch =>
        if channel_id ch =? mapping_channel_id m then
          flat_map (fun sv =>
            if server_id sv =? mapping_server_id m then
              if handle_is h u
              then [(channel_id ch, channel_name ch,
                     server_id sv, server_name sv)]
              else []
            else [])
            (Servers t)
        else [])
        (Channels t)
    else [])
    (Users t) = [].
Proof.
  unfold dangling, find_channel, find_server. intros D.
  apply flat_map_nil. intros u _.
  destruct (user_id u =? mapping_user_id m); [|reflexivity].
  apply flat_map_nil. intros ch Ich.
  destruct (channel_id ch =? mapping_channel_id m) eqn:Ec; [|reflexivity].
  apply flat_map_nil. intros sv Isv.
  destruct (server_id sv =? mapping_server_id m) eqn:Es; [|reflexivity].
  exfalso.
  destruct (find (fun ch => channel_id ch =? mapping_channel_id m)
              (Channels t)) eqn:Fc.
  - destruct (find (fun sv => server_id sv =? mapping_server_id m)
                (Servers t)) eqn:Fs; [discriminate|].
    pose proof (find_none _ _ Fs sv Isv) as X. simpl in X. congruence.
  - pose proof (find_none _ _ Fc ch Ich) as X. simpl in X. congruence.
Qed.

(** C10. [get_user_channels] returns without raising; what it returns is
    what it would return with every membership whose channel or server is
    missing taken out of the table, and every tuple of it is made of a
    channel and a server that are in their tables.  Such memberships can be
    in the table: for an existing user, [map_user_to_channel] inserts the
    ids it is given (within the range of a 64-bit integer) whatever the
    tables of channels and servers hold. *)
Theorem get_user_channels_omits_dangling (h : string) (c : connection) :
  (exists rows,
     get_user_channels h c = (Ok rows, c)
     /\ rows = select_user_channels h (drop_dangling (view c))
     /\ forall row, In row rows -> complete_row (view c) row)
  /\ (forall u cid sid,
        find (handle_is h) (Users (view c)) = Some u ->
        fits_int64 cid = true -> fits_int64 sid = true ->
        fst (map_user_to_channel h cid sid c) = Ok tt
        /\ In (mkMapping
                 (next_rowid mapping_id (UserChannelMapping (view c))
                    (seq_UserChannelMapping (view c)))
                 (user_id u) cid sid)
              (UserChannelMapping
                 (view (snd (map_user_to_channel h cid sid c))))).
Proof.
  split.
  - exists (select_user_channels h (view c)).
    split; [apply get_user_channels_eq|]. split.
    + unfold select_user_channels, drop_dangling.
      cbn [Users Servers Channels UserChannelMapping].
      symmetry. apply flat_map_filter. intros m _ D.
      apply dangling_contributes_nothing.
      now destruct (dangling (view c) m).
    + intros row I. unfold select_user_channels in I.
      apply in_flat_map in I as (m & Im & I).
      apply in_flat_map in I as (u & Iu & I).
      destruct (user_id u =? mapping_user_id m); [|destruct I].
      apply in_flat_map in I as (ch & Ich & I).
      destruct (channel_id ch =? mapping_channel_id m) eqn:Ec; [|destruct I].
      apply in_flat_map in I as (sv & Isv & I).
      destruct (server_id sv =? mapping_server_id m) eqn:Es; [|destruct I].
      destruct (handle_is h u); [|destruct I].
      destruct I as [<-|[]]. apply Z.eqb_eq in Ec, Es.
      now exists m, ch, sv.
  - intros u cid sid F Hc Hs.
    rewrite (map_user_to_channel_known _ _ _ _ _ F), Hc, Hs.
    cbn. split; [reflexivity|]. apply in_or_app. right. now left.
Qed.

(** *** Where the handles of the rows come from *)

Lemma handles_after k c u :
  In u (Users (view (after k c))) ->
  (exists v, In v (Users (view c)) /\ handle v = handle u)
  \/ exists now, k = AddUser now (handle u).
Proof.
  destruct k; cbn [after].
  - destruct (existsb (handle_is h) (Users (view c))) eqn:E.
    + rewrite add_user_duplicate by assumption. eauto.
    + rewrite add_user_fresh by assumption. cbn.
      intros I. apply in_app_iff in I as [I|[<-|[]]]; eauto.
  - cbn. eauto.
  - unfold add_channel, bind, statement, insert_channel.
    destruct (fits_int64 sid); cbn; eauto.
  - destruct (find (handle_is h) (Users (view c))) as [v|] eqn:F.
    + rewrite (map_user_to_channel_known _ _ _ _ _ F).
      destruct (fits_int64 cid && fits_int64 sid); cbn; eauto.
    + rewrite map_user_to_channel_unknown by assumption. eauto.
  - rewrite update_user_solved_problems_eq.
    destruct (Json.dumps solved) as [text|]; cbn; [|eauto].
    intros I. apply in_map_iff in I as (v & <- & I). left. exists v.
    split; [assumption|]. now destruct (handle_is h v).
  - rewrite get_user_channels_eq. eauto.
  - rewrite get_user_id_by_handle_eq. eauto.
Qed.

Lemma handles_run ks : forall c u,
  In u (Users (view (run ks c))) ->
  (exists v, In v (Users (view c)) /\ handle v = handle u)
  \/ exists now, In (AddUser now (handle u)) ks.
Proof.
  induction ks as [|k ks IH]; intros c u I.
  - left. now exists u.
  - destruct (IH _ _ I) as [(v & Iv & E)|(now & X)].
    + destruct (handles_after _ _ _ Iv) as [(w & Iw & E')|(now & ->)].
      * left. exists w. split; [assumption | congruence].
      * right. exists now. left. now rewrite E.
    + right. exists now. now right.
Qed.

(** C9, as the code has it.  The store takes the handle it is given; the
    handle of every row is the argument of an [add_user] of the history, so
    when no [add_user] of the history was given the empty string, no row
    has an empty handle. *)
Theorem handles_nonempty_if_added_nonempty (ks : list call) (u : User) :
  (forall now h, In (AddUser now h) ks -> h <> "") ->
  In u (Users (view (run ks (_initialize_database None)))) ->
  handle u <> "".
Proof.
  intros H I. destruct (handles_run _ _ _ I) as [(v & [] & _)|(now & X)].
  exact (H _ _ X).
Qed.

Lemma handles_nonempty_if_added_nonempty_witness :
  (forall now h, In (AddUser now h) demo -> h <> "")
  /\ In demo_user (Users (view (run demo (_initialize_database None))))
  /\ handle demo_user <> "".
Proof.
  assert (H : forall now h, In (AddUser now h) demo -> h <> "").
  { intros now h I. unfold demo in I. simpl in I.
    repeat (destruct I as [I|I]; [try discriminate I|]); [|destruct I].
    now injection I as _ <-. }
  assert (I : In demo_user (Users (view (run demo (_initialize_database None)))))
    by (left; reflexivity).
  exact (conj H (conj I (handles_nonempty_if_added_nonempty demo demo_user H I))).
Defined.

(** C9, as the specification words it, fails: [add_user] with the empty
    string on a new store inserts a row whose handle is empty. *)
Lemma empty_handle_is_stored :
  ~ (forall c u, reachable c -> In u (Users (view c)) -> handle u <> "").
Proof.
  intros H.
  apply (H (run [AddUser 0 ""] (_initialize_database None))
           (mkUser 1 "" 0 "[]" 0 0)).
  - now exists [AddUser 0 ""].
  - left. reflexivity.
  - reflexivity.
Qed.

End StoreFacts.

(* ================================================================= *)
(** ** The singleton: one instance, one setup *)

Section SingletonFacts.
Import Singleton.

Lemma goto_same i p f : goto i p f i = p.
Proof. unfold goto. now rewrite Nat.eqb_refl. Qed.

Lemma goto_other i j p f : j <> i -> goto i p f j = f j.
Proof. unfold goto. intros H. now rewrite (proj2 (Nat.eqb_neq j i) H). Qed.

Lemma invariant_init : invariant init.
Proof.
  split; simpl; try discriminate. now left.
Qed.

Lemma phase_instance s :
  phase_ok s -> forall a, _instance s = Some a -> a = 0%nat.
Proof.
  unfold phase_ok, shared, untouched, set_up.
  destruct (_lock s) as [k|]; [destruct (at_pc s k)|]; intros P a E;
    try contradiction; try destruct P as [P|P]; congruence.
Qed.

Lemma phase_dcl s : phase_ok s -> _dcl s = true -> _instance s = Some 0%nat.
Proof.
  unfold phase_ok, shared, untouched, set_up.
  destruct (_lock s) as [k|]; [destruct (at_pc s k)|]; intros P E;
    try contradiction; try destruct P as [P|P]; congruence.
Qed.

Lemma phase_counts s :
  phase_ok s ->
  (allocated s <= 1 /\ connects s <= 1 /\ bootstraps s <= 1)%nat.
Proof.
  unfold phase_ok, shared, untouched, set_up.
  destruct (_lock s) as [k|]; [destruct (at_pc s k)|]; intros P;
    try contradiction; try destruct P as [P|P]; injection P as _ _ -> -> ->;
    lia.
Qed.

(** The invocation [i] is at a place inside the [with] block: it holds the
    lock, and the phase is the one of its place. *)
Ltac holder L i Ei K :=
  pose proof (L i) as K; rewrite Ei in K; specialize (K eq_refl).

Ltac split_on j i :=
  destruct (Nat.eq_dec j i) as [->|?];
  [rewrite ?goto_same in * | rewrite ?goto_other in * by assumption].

Lemma invariant_step i s s' : invariant s -> step i s = Some s' -> invariant s'.
Proof.
  intros [P L R1 R2] H. unfold step in H.
  pose proof (phase_instance s P) as PI. pose proof (phase_dcl s P) as PD.
  destruct (at_pc s i) eqn:Ei;
    try (holder L i Ei K; unfold phase_ok in P; rewrite K, Ei in P;
         unfold shared, untouched, set_up in P);
    try (destruct (_lock s) as [k|] eqn:EL; [try discriminate H|]);
    try (injection H as <-);
    (split; unfold phase_ok, shared, untouched, set_up;
     cbn [_instance _dcl _lock allocated connects bootstraps at_pc];
     [ | intros j; split_on j i | intros j; split_on j i
       | intros j w; split_on j i ]).
  all: unfold phase_ok, shared, untouched, set_up in P; rewrite ?EL in P.
  all: try (injection K as ->); try discriminate K.
  all: rewrite ?goto_same.
  all: try (split_on k i; [rewrite Ei in P; contradiction | assumption]).
  all: intros;
    repeat match goal with
      | X : in_critical (at_pc _ _) = true |- _ => apply L in X
      | X : at_pc _ _ = Return |- _ => apply R1 in X
      | X : at_pc _ _ = Returned _ |- _ => apply R2 in X; destruct X
      | X : _ \/ _ |- _ => destruct X
      end;
    match goal with
    | X : state |- _ =>
        destruct (_instance X) eqn:?; destruct (_dcl X) eqn:?
    end;
    simpl in *; try (split; congruence); try congruence; auto.
Qed.

Lemma invariant_sched_step s i : invariant s -> invariant (sched_step s i).
Proof.
  intros I. unfold sched_step. destruct (step i s) as [s'|] eqn:E.
  - exact (invariant_step i s s' I E).
  - exact I.
Qed.

Lemma invariant_run schedule : forall s, invariant s -> invariant (run schedule s).
Proof.
  induction schedule as [|i schedule IH]; intros s I; [exact I|].
  apply IH, invariant_sched_step, I.
Qed.

Lemma run_app a b s : run (a ++ b) s = run b (run a s).
Proof. apply fold_left_app. Qed.

(** *** Every invocation can be run to its return *)

(** An invocation that nothing hinders can move unless it has returned; the
    move leaves it unhindered and nearer to its return. *)
Lemma step_unhindered i s :
  unhindered i s ->
  (exists v, at_pc s i = Returned v)
  \/ exists s', step i s = Some s' /\ unhindered i s'
                /\ (todo (at_pc s' i) < todo (at_pc s i))%nat.
Proof.
  unfold unhindered, step. intros U.
  destruct (at_pc s i) eqn:E; [..|left; eauto]; right;
    destruct U as [U|[U C]]; try discriminate C; rewrite ?U;
    eexists; (split; [reflexivity|]);
    cbn [_lock at_pc]; rewrite goto_same;
    (split; [|try destruct (_instance s); try destruct (_dcl s); simpl; lia]);
    try (now left);
    right; (split; [reflexivity|]);
    try destruct (_instance s); reflexivity.
Qed.

Lemma unhindered_returns n : forall i s,
  unhindered i s -> (todo (at_pc s i) <= n)%nat ->
  exists v, at_pc (run (repeat i n) s) i = Returned v
            /\ _lock (run (repeat i n) s) = None.
Proof.
  induction n as [|n IH]; intros i s U T.
  - destruct (at_pc s i) eqn:E; simpl in T; try lia. exists v.
    split; [exact E|]. destruct U as [U|[_ C]]; [exact U|].
    rewrite E in C. discriminate C.
  - cbn [repeat run fold_left]. fold (run (repeat i n) (sched_step s i)).
    destruct (step_unhindered i s U) as [(v & E)|(s' & E & U' & T')].
    + unfold sched_step, step. rewrite E. apply IH; [exact U|].
      rewrite E. simpl. lia.
    + unfold sched_step. rewrite E. apply IH; [exact U'|lia].
Qed.

(** From a state in which the invariant holds, any invocation returns
    after the holder of the lock, if there is one, and then the invocation
    itself are given enough steps. *)
Lemma todo_bound p : (todo p <= 11)%nat.
Proof. destruct p; simpl; lia. Qed.

Lemma can_return i s :
  invariant s ->
  exists more v, at_pc (run more s) i = Returned v
                 /\ _lock (run more s) = None.
Proof.
  intros I. destruct (_lock s) as [j|] eqn:EL.
  - assert (U : unhindered j s).
    { right. split; [exact EL|]. pose proof (inv_phase s I) as P.
      unfold phase_ok in P. rewrite EL in P.
      destruct (at_pc s j); try contradiction; reflexivity. }
    destruct (unhindered_returns 11 j s U (todo_bound _)) as (w & _ & F).
    destruct (unhindered_returns 11 i (run (repeat j 11) s)
                (or_introl F) (todo_bound _)) as (v & E & F').
    exists (repeat j 11 ++ repeat i 11)%list, v.
    rewrite run_app. split; [exact E | exact F'].
  - destruct (unhindered_returns 11 i s (or_introl EL) (todo_bound _))
      as (v & E & F).
    exists (repeat i 11), v. split; [exact E | exact F].
Qed.

(** After a return, with the lock free, the setup has run, once. *)
Lemma returned_set_up s i v :
  invariant s -> at_pc s i = Returned v -> _lock s = None ->
  shared s = set_up.
Proof.
  intros I E F. pose proof (inv_phase s I) as P.
  destruct (inv_returned s I i v E) as [_ X].
  unfold phase_ok in P. rewrite F in P. destruct P as [P|P]; [|exact P].
  unfold shared, untouched in P. congruence.
Qed.

(** C1. Whatever the interleaving of the invocations of [Database()]:
    any two invocations that have returned have returned the same object;
    the object is made, the connection opened and the schema bootstrapped
    at most once; once an invocation has returned and no invocation holds
    the lock, each of the three has happened exactly once; and every
    invocation can be run on to its return, to a state where that is so. *)
Theorem database_singleton (schedule : list nat) :
  (forall i j v w,
      at_pc (run schedule init) i = Returned v ->
      at_pc (run schedule init) j = Returned w ->
      v = w /\ v <> None)
  /\ (allocated (run schedule init) <= 1
      /\ connects (run schedule init) <= 1
      /\ bootstraps (run schedule init) <= 1)%nat
  /\ ((exists i v, at_pc (run schedule init) i = Returned v) ->
      _lock (run schedule init) = None ->
      allocated (run schedule init) = 1%nat
      /\ connects (run schedule init) = 1%nat
      /\ bootstraps (run schedule init) = 1%nat)
  /\ (forall i, exists more v,
        at_pc (run (schedule ++ more) init) i = Returned v
        /\ connects (run (schedule ++ more) init) = 1%nat
        /\ bootstraps (run (schedule ++ more) init) = 1%nat).
Proof.
  pose proof (invariant_run schedule init invariant_init) as I.
  split; [|split; [|split]].
  - intros i j v w Ei Ej.
    destruct (inv_returned _ I i v Ei) as [-> _].
    destruct (inv_returned _ I j w Ej) as [-> _].
    split; [reflexivity | discriminate].
  - apply phase_counts, inv_phase, I.
  - intros (i & v & E) F.
    pose proof (returned_set_up _ i v I E F) as S.
    unfold shared, set_up in S. now injection S as _ _ -> -> ->.
  - intros i. destruct (can_return i _ I) as (more & v & E & F).
    exists more, v. rewrite run_app. split; [exact E|].
    pose proof (returned_set_up _ i v (invariant_run more _ I) E F) as S.
    unfold shared, set_up in S. now injection S as _ _ _ -> ->.
Qed.

End SingletonFacts.

(* ================================================================= *)
(** ** The store: more about the methods and their histories *)

Section StoreLaws.
Import Store Spec History.
#[local] Open Scope list_scope.

(** *** Each table after a call *)

Lemma add_server_eq name c :
  add_server name c
  = let t := view c in
    let id := next_rowid server_id (Servers t) (seq_Servers t) in
    let t' := mkTables (Users t) (Servers t ++ [mkServer id name])
                (Channels t) (UserChannelMapping t)
                (seq_Users t) id (seq_Channels t)
                (seq_UserChannelMapping t) in
    (Ok tt, mkConnection t' t').
Proof. reflexivity. Qed.

Lemma add_channel_eq name sid c :
  add_channel name sid c
  = if fits_int64 sid
    then
      let t := view c in
      let id := next_rowid channel_id (Channels t) (seq_Channels t) in
      let t' := mkTables (Users t) (Servers t)
                  (Channels t ++ [mkChannel id name sid])
                  (UserChannelMapping t)
                  (seq_Users t) (seq_Servers t) id
                  (seq_UserChannelMapping t) in
      (Ok tt, mkConnection t' t')
    else (Raise OverflowError, c).
Proof.
  unfold add_channel, bind, statement, insert_channel.
  now destruct (fits_int64 sid).
Qed.

Lemma users_after k c :
  Users (view (after k c))
  = match k with
    | AddUser now h =>
        if existsb (handle_is h) (Users (view c))
        then Users (view c)
        else Users (view c)
             ++ [mkUser (next_rowid user_id (Users (view c))
                           (seq_Users (view c)))
                        h 0 "[]" now now]
    | UpdateUserSolvedProblems now h solved =>
        match Json.dumps solved with
        | Some text =>
            map (fun u => if handle_is h u
                          then set_solved (Z.of_nat (List.length solved))
                                 text now u
                          else u) (Users (view c))
        | None => Users (view c)
        end
    | _ => Users (view c)
    end.
Proof.
  destruct k; cbn [after].
  - destruct (existsb (handle_is h) (Users (view c))) eqn:E.
    + now rewrite add_user_duplicate.
    + now rewrite add_user_fresh.
  - reflexivity.
  - rewrite add_channel_eq. now destruct (fits_int64 sid).
  - destruct (find (handle_is h) (Users (view c))) as [u|] eqn:F.
    + rewrite (map_user_to_channel_known _ _ _ _ _ F).
      now destruct (fits_int64 cid && fits_int64 sid).
    + now rewrite map_user_to_channel_unknown.
  - rewrite update_user_solved_problems_eq.
    now destruct (Json.dumps solved).
  - now rewrite get_user_channels_eq.
  - now rewrite get_user_id_by_handle_eq.
Qed.

Lemma servers_after k c :
  Servers (view (after k c))
  = match k with
    | AddServer name =>
        Servers (view c)
        ++ [mkServer (next_rowid server_id (Servers (view c))
                        (seq_Servers (view c))) name]
    | _ => Servers (view c)
    end.
Proof.
  destruct k; cbn [after].
  - destruct (existsb (handle_is h) (Users (view c))) eqn:E.
    + now rewrite add_user_duplicate.
    + now rewrite add_user_fresh.
  - reflexivity.
  - rewrite add_channel_eq. now destruct (fits_int64 sid).
  - destruct (find (handle_is h) (Users (view c))) as [u|] eqn:F.
    + rewrite (map_user_to_channel_known _ _ _ _ _ F).
      now destruct (fits_int64 cid && fits_int64 sid).
    + now rewrite map_user_to_channel_unknown.
  - rewrite update_user_solved_problems_eq.
    now destruct (Json.dumps solved).
  - now rewrite get_user_channels_eq.
  - now rewrite get_user_id_by_handle_eq.
Qed.

Lemma channels_after k c :
  Channels (view (after k c))
  = match k with
    | AddChannel name sid =>
        if fits_int64 sid
        then Channels (view c)
             ++ [mkChannel (next_rowid channel_id (Channels (view c))
                              (seq_Channels (view c))) name sid]
        else Channels (view c)
    | _ => Channels (view c)
    end.
Proof.
  destruct k; cbn [after].
  - destruct (existsb (handle_is h) (Users (view c))) eqn:E.
    + now rewrite add_user_duplicate.
    + now rewrite add_user_fresh.
  - reflexivity.
  - rewrite add_channel_eq. now destruct (fits_int64 sid).
  - destruct (find (handle_is h) (Users (view c))) as [u|] eqn:F.
    + rewrite (map_user_to_channel_known _ _ _ _ _ F).
      now destruct (fits_int64 cid && fits_int64 sid).
    + now rewrite map_user_to_channel_unknown.
  - rewrite update_user_solved_problems_eq.
    now destruct (Json.dumps solved).
  - now rewrite get_user_channels_eq.
  - now rewrite get_user_id_by_handle_eq.
Qed.

Lemma mappings_after k c :
  UserChannelMapping (view (after k c))
  = match k with
    | MapUserToChannel h cid sid =>
        match find (handle_is h) (Users (view c)) with
        | Some u =>
            if fits_int64 cid && fits_int64 sid
            then UserChannelMapping (view c)
                 ++ [mkMapping
                       (next_rowid mapping_id (UserChannelMapping (view c))
                          (seq_UserChannelMapping (view c)))
                       (user_id u) cid sid]
            else UserChannelMapping (view c)
        | None => UserChannelMapping (view c)
        end
    | _ => UserChannelMapping (view c)
    end.
Proof.
  destruct k; cbn [after].
  - destruct (existsb (handle_is h) (Users (view c))) eqn:E.
    + now rewrite add_user_duplicate.
    + now rewrite add_user_fresh.
  - reflexivity.
  - rewrite add_channel_eq. now destruct (fits_int64 sid).
  - destruct (find (handle_is h) (Users (view c))) as [u|] eqn:F.
    + rewrite (map_user_to_channel_known _ _ _ _ _ F).
      now destruct (fits_int64 cid && fits_int64 sid).
    + now rewrite map_user_to_channel_unknown.
  - rewrite update_user_solved_problems_eq.
    now destruct (Json.dumps solved).
  - now rewrite get_user_channels_eq.
  - now rewrite get_user_id_by_handle_eq.
Qed.

Lemma reachable_after k c : reachable c -> reachable (after k c).
Proof.
  intros [ks ->]. exists (ks ++ [k])%list. unfold run.
  now rewrite fold_left_app.
Qed.

Lemma reachable_run ks c : reachable c -> reachable (run ks c).
Proof.
  revert c. induction ks as [|k ks IH]; intros c R; [exact R|].
  apply IH, reachable_after, R.
Qed.

(** *** Exceptions, commits and keys *)

Lemma after_raised k c e : raised k c = Some e -> after k c = c.
Proof.
  destruct k; cbn [raised after].
  - destruct (existsb (handle_is h) (Users (view c))) eqn:E.
    + now rewrite add_user_duplicate.
    + rewrite add_user_fresh by assumption. discriminate.
  - discriminate.
  - rewrite add_channel_eq. destruct (fits_int64 sid); [discriminate|easy].
  - destruct (find (handle_is h) (Users (view c))) as [u|] eqn:F.
    + rewrite (map_user_to_channel_known _ _ _ _ _ F).
      destruct (fits_int64 cid && fits_int64 sid); [discriminate|easy].
    + now rewrite map_user_to_channel_unknown.
  - rewrite update_user_solved_problems_eq.
    destruct (Json.dumps solved); [discriminate|reflexivity].
  - now rewrite get_user_channels_eq.
  - now rewrite get_user_id_by_handle_eq.
Qed.

(** X1. A call that raises leaves the connection exactly as it found it:
    no method of [Database] fails half way. *)
Theorem failed_call_changes_nothing (k : call) (c : connection) (e : exn) :
  raised k c = Some e -> after k c = c.
Proof. apply after_raised. Qed.

Lemma failed_call_changes_nothing_witness :
  raised (AddChannel "C" (2 ^ 63)) demo_store = Some OverflowError
  /\ after (AddChannel "C" (2 ^ 63)) demo_store = demo_store.
Proof.
  assert (H : raised (AddChannel "C" (2 ^ 63)) demo_store = Some OverflowError)
    by (vm_compute; reflexivity).
  exact (conj H (failed_call_changes_nothing _ _ _ H)).
Defined.

(** X2. After any history of calls on a new store, whether they returned or
    raised, everything the connection sees has been committed. *)
Theorem calls_commit (ks : list call) :
  durable (run ks (_initialize_database None))
  = view (run ks (_initialize_database None)).
Proof.
  apply wf_committed, reachable_well_formed. now exists ks.
Qed.

(** X3. In every state the store can reach no two rows of [Users] have the
    same handle, and in [Users], [Servers] and [Channels] no two rows have
    the same id; every id is positive. *)
Theorem keys_are_unique (c : connection) :
  reachable c ->
  NoDup (map handle (Users (view c)))
  /\ NoDup (map user_id (Users (view c)))
  /\ NoDup (map server_id (Servers (view c)))
  /\ NoDup (map channel_id (Channels (view c)))
  /\ (forall u, In u (Users (view c)) -> 0 < user_id u)
  /\ (forall sv, In sv (Servers (view c)) -> 0 < server_id sv)
  /\ (forall ch, In ch (Channels (view c)) -> 0 < channel_id ch).
Proof.
  intros R. destruct (reachable_well_formed _ R)
    as [_ NH (_ & NU & BU) (_ & NS & BS) (_ & NC & BC) _].
  repeat split; trivial; intros x I;
    [apply BU in I | apply BS in I | apply BC in I]; lia.
Qed.

Lemma keys_are_unique_witness :
  reachable demo_store
  /\ NoDup (map handle (Users (view demo_store)))
  /\ NoDup (map user_id (Users (view demo_store)))
  /\ NoDup (map server_id (Servers (view demo_store)))
  /\ NoDup (map channel_id (Channels (view demo_store)))
  /\ (forall u, In u (Users (view demo_store)) -> 0 < user_id u)
  /\ (forall sv, In sv (Servers (view demo_store)) -> 0 < server_id sv)
  /\ (forall ch, In ch (Channels (view demo_store)) -> 0 < channel_id ch).
Proof.
  assert (R : reachable demo_store) by (exists demo; reflexivity).
  exact (conj R (keys_are_unique demo_store R)).
Defined.

(** *** Rows are never removed or renamed *)

Lemma extends_refl {A} (l : list A) : extends l l.
Proof. exists []. now rewrite app_nil_r. Qed.

Lemma extends_trans {A} (l1 l2 l3 : list A) :
  extends l1 l2 -> extends l2 l3 -> extends l1 l3.
Proof.
  intros [a ->] [b ->]. exists (a ++ b). now rewrite app_assoc.
Qed.

Lemma extends_snoc {A} (l : list A) x : extends l (l ++ [x]).
Proof. now exists [x]. Qed.

Lemma map_identity_update h count problems now us :
  map identity (map (fun u => if handle_is h u
                              then set_solved count problems now u
                              else u) us)
  = map identity us.
Proof.
  rewrite map_map. apply map_ext. intros u. now destruct (handle_is h u).
Qed.

Lemma after_extends k c :
  extends (map identity (Users (view c)))
          (map identity (Users (view (after k c))))
  /\ extends (Servers (view c)) (Servers (view (after k c)))
  /\ extends (Channels (view c)) (Channels (view (after k c)))
  /\ extends (UserChannelMapping (view c))
             (UserChannelMapping (view (after k c))).
Proof.
  rewrite users_after, servers_after, channels_after, mappings_after.
  destruct k; repeat split; try apply extends_refl.
  - destruct (existsb (handle_is h) (Users (view c)));
      [apply extends_refl|]. rewrite map_app. eexists. reflexivity.
  - apply extends_snoc.
  - destruct (fits_int64 sid); [apply extends_snoc | apply extends_refl].
  - destruct (find (handle_is h) (Users (view c)));
      [|apply extends_refl].
    destruct (fits_int64 cid && fits_int64 sid);
      [apply extends_snoc | apply extends_refl].
  - destruct (Json.dumps solved); [|apply extends_refl].
    rewrite map_identity_update. apply extends_refl.
Qed.

Lemma rows_are_kept_users ks : forall c,
  extends (map identity (Users (view c)))
          (map identity (Users (view (run ks c)))).
Proof.
  induction ks as [|k ks IH]; intros c; [apply extends_refl|].
  eapply extends_trans; [apply after_extends | apply IH].
Qed.

(** X4. No history of calls removes, reorders or rewrites a row of
    [Servers], [Channels] or [UserChannelMapping], and none removes a row
    of [Users] or changes its id, its handle or its [last_check_time]: each
    table after the history is the table before it with rows added at the
    end. *)
Theorem rows_are_kept (ks : list call) (c : connection) :
  extends (map identity (Users (view c)))
          (map identity (Users (view (run ks c))))
  /\ extends (Servers (view c)) (Servers (view (run ks c)))
  /\ extends (Channels (view c)) (Channels (view (run ks c)))
  /\ extends (UserChannelMapping (view c))
             (UserChannelMapping (view (run ks c))).
Proof.
  revert c. induction ks as [|k ks IH]; intros c.
  - repeat split; apply extends_refl.
  - destruct (after_extends k c) as (U & S & C & M).
    destruct (IH (after k c)) as (U' & S' & C' & M').
    repeat split; eapply extends_trans; eauto.
Qed.

(** *** Memberships and users *)

Lemma memberships_refer_after k c :
  memberships_refer (view c) -> memberships_refer (view (after k c)).
Proof.
  unfold memberships_refer. intros H m.
  rewrite users_after, mappings_after. destruct k; try apply H.
  - intros I. destruct (H m I) as (u & Iu & E).
    destruct (existsb (handle_is h) (Users (view c))); [eauto|].
    exists u. split; [|exact E]. apply in_or_app. now left.
  - destruct (find (handle_is h) (Users (view c))) as [u|] eqn:F;
      [|apply H].
    destruct (fits_int64 cid && fits_int64 sid); [|apply H].
    intros I. apply in_app_iff in I as [I|[<-|[]]]; [now apply H|].
    exists u. split; [|reflexivity]. now apply find_some in F.
  - intros I. destruct (H m I) as (u & Iu & E).
    destruct (Json.dumps solved) as [text|]; [|eauto].
    eexists. split; [apply in_map, Iu|].
    now destruct (handle_is h u).
Qed.

Lemma memberships_refer_reachable c :
  reachable c -> memberships_refer (view c).
Proof.
  intros [ks ->].
  assert (G : forall c, memberships_refer (view c) ->
                        memberships_refer (view (run ks c))).
  { induction ks as [|k ks IH]; intros c H; [exact H|].
    apply IH, memberships_refer_after, H. }
  apply G. intros m [].
Qed.

(** X5. In every state the store can reach, the [user_id] of every row of
    [UserChannelMapping] is the id of a row of [Users]: a membership is
    only ever made for a user that exists, and users are never removed. *)
Theorem memberships_have_users (c : connection) (m : Mapping) :
  reachable c -> In m (UserChannelMapping (view c)) ->
  exists u, In u (Users (view c)) /\ user_id u = mapping_user_id m.
Proof.
  intros R. apply memberships_refer_reachable, R.
Qed.

Lemma memberships_have_users_witness :
  reachable dangling_store
  /\ In (mkMapping 2 1 99 7) (UserChannelMapping (view dangling_store))
  /\ exists u, In u (Users (view dangling_store))
               /\ user_id u = mapping_user_id (mkMapping 2 1 99 7).
Proof.
  assert (R : reachable dangling_store) by (eexists; reflexivity).
  assert (I : In (mkMapping 2 1 99 7)
                 (UserChannelMapping (view dangling_store)))
    by (right; left; reflexivity).
  exact (conj R (conj I (memberships_have_users _ _ R I))).
Defined.

(** *** Adding and looking up *)

Lemma find_app_some {A} (p : A -> bool) l r x :
  find p l = Some x -> find p (l ++ r) = Some x.
Proof.
  induction l as [|y l IH]; simpl; [discriminate|].
  destruct (p y); [easy | exact IH].
Qed.

Lemma find_app_none {A} (p : A -> bool) l r :
  find p l = None -> find p (l ++ r) = find p r.
Proof.
  induction l as [|y l IH]; simpl; [reflexivity|].
  destruct (p y); [discriminate | exact IH].
Qed.

Lemma nodup_map_eq {A B} (f : A -> B) l x y :
  NoDup (map f l) -> In x l -> In y l -> f x = f y -> x = y.
Proof.
  induction l as [|z l IH]; intros N Ix Iy E; [destruct Ix|].
  simpl in N. inversion N as [|? ? NI N']; subst.
  destruct Ix as [->|Ix], Iy as [->|Iy]; trivial.
  - destruct NI. rewrite E. now apply in_map.
  - destruct NI. rewrite <- E. now apply in_map.
  - now apply IH.
Qed.

Lemma existsb_handle_false h us :
  existsb (handle_is h) us = false <-> forall u, In u us -> handle u <> h.
Proof.
  split.
  - intros E u I X.
    assert (existsb (handle_is h) us = true) by (apply existsb_handle; eauto).
    congruence.
  - intros H. destruct (existsb (handle_is h) us) eqn:E; [|reflexivity].
    apply existsb_handle in E as (u & I & X). now destruct (H u I).
Qed.

(** X6. On a store that has no user with the handle, [add_user] returns;
    it adds one row at the end of [Users], with an id larger than every id
    in the table, the handle, count 0, the text of the empty list and both
    timestamps at the reading of the clock; and [get_user_id_by_handle]
    then returns the id of that row. *)
Theorem add_user_then_lookup (now : timestamp) (h : string)
  (c : connection) :
  reachable c ->
  (forall u, In u (Users (view c)) -> handle u <> h) ->
  exists id,
    fst (add_user now h c) = Ok tt
    /\ Users (view (snd (add_user now h c)))
       = Users (view c) ++ [mkUser id h 0 "[]" now now]
    /\ (forall u, In u (Users (view c)) -> user_id u < id)
    /\ fst (get_user_id_by_handle h (snd (add_user now h c))) = Ok (Some id).
Proof.
  intros R H. pose proof (wf_users _ (reachable_well_formed _ R)) as K.
  apply existsb_handle_false in H as E.
  exists (next_rowid user_id (Users (view c)) (seq_Users (view c))).
  rewrite add_user_fresh by assumption. cbn [fst snd view Users].
  repeat split.
  - intros u I. rewrite (next_rowid_seq _ _ _ K).
    destruct K as (_ & _ & B). specialize (B u I). lia.
  - rewrite get_user_id_by_handle_eq. cbn [fst view Users].
    rewrite find_app_none by (now apply find_handle_none).
    simpl. unfold handle_is. simpl. now rewrite String.eqb_refl.
Qed.

Lemma add_user_then_lookup_witness :
  reachable demo_store
  /\ (forall u, In u (Users (view demo_store)) -> handle u <> "user2")
  /\ exists id,
       fst (add_user 9 "user2" demo_store) = Ok tt
       /\ Users (view (snd (add_user 9 "user2" demo_store)))
          = Users (view demo_store) ++ [mkUser id "user2" 0 "[]" 9 9]
       /\ (forall u, In u (Users (view demo_store)) -> user_id u < id)
       /\ fst (get_user_id_by_handle "user2"
                 (snd (add_user 9 "user2" demo_store))) = Ok (Some id).
Proof.
  assert (R : reachable demo_store) by (exists demo; reflexivity).
  assert (H : forall u, In u (Users (view demo_store)) -> handle u <> "user2")
    by (intros u [<-|[]]; discriminate).
  exact (conj R (conj H (add_user_then_lookup 9 "user2" demo_store R H))).
Defined.

(** X7. In every state the store can reach, [get_user_id_by_handle] returns
    without raising and without changing the connection; it returns [None]
    exactly when no row of [Users] has the handle, and an id exactly when
    the row with that id has the handle. *)
Theorem get_user_id_by_handle_finds (h : string) (c : connection) :
  reachable c ->
  snd (get_user_id_by_handle h c) = c
  /\ (fst (get_user_id_by_handle h c) = Ok None
      <-> forall u, In u (Users (view c)) -> handle u <> h)
  /\ (forall id,
        fst (get_user_id_by_handle h c) = Ok (Some id)
        <-> exists u, In u (Users (view c)) /\ handle u = h /\ user_id u = id).
Proof.
  intros R. pose proof (wf_handles _ (reachable_well_formed _ R)) as N.
  rewrite get_user_id_by_handle_eq. cbn [fst snd].
  split; [reflexivity|]. split.
  - rewrite <- find_handle_none.
    destruct (find (handle_is h) (Users (view c))); simpl;
      split; intros X; congruence.
  - intros id. split.
    + destruct (find (handle_is h) (Users (view c))) as [u|] eqn:F;
        simpl; intros [= <-].
      apply find_some in F as [I E]. apply handle_is_true in E. eauto.
    + intros (u & I & E & <-).
      destruct (find (handle_is h) (Users (view c))) as [v|] eqn:F.
      * apply find_some in F as [Iv Ev]. apply handle_is_true in Ev.
        simpl. do 3 f_equal. apply (nodup_map_eq handle _ v u N); congruence.
      * rewrite find_handle_none in F. now destruct (F u I).
Qed.

Lemma get_user_id_by_handle_finds_witness :
  reachable demo_store
  /\ snd (get_user_id_by_handle "user1" demo_store) = demo_store
  /\ (fst (get_user_id_by_handle "user1" demo_store) = Ok None
      <-> forall u, In u (Users (view demo_store)) -> handle u <> "user1")
  /\ (forall id,
        fst (get_user_id_by_handle "user1" demo_store) = Ok (Some id)
        <-> exists u, In u (Users (view demo_store))
                      /\ handle u = "user1" /\ user_id u = id).
Proof.
  assert (R : reachable demo_store) by (exists demo; reflexivity).
  exact (conj R (get_user_id_by_handle_finds "user1" demo_store R)).
Defined.

Lemma lookup_by_identity h us :
  option_map user_id (find (handle_is h) us)
  = option_map (fun x => fst (fst x))
      (find (fun x => String.eqb (snd (fst x)) h) (map identity us)).
Proof.
  induction us as [|u us IH]; [reflexivity|]. simpl.
  unfold handle_is at 1. destruct (String.eqb (handle u) h); [reflexivity|].
  exact IH.
Qed.

(** X8. The id that [get_user_id_by_handle] returns for a handle stays the
    same after any further calls. *)
Theorem user_id_is_stable (h : string) (id : Z) (ks : list call)
  (c : connection) :
  fst (get_user_id_by_handle h c) = Ok (Some id) ->
  fst (get_user_id_by_handle h (run ks c)) = Ok (Some id).
Proof.
  rewrite !get_user_id_by_handle_eq. cbn [fst].
  rewrite !lookup_by_identity.
  destruct (rows_are_kept_users ks c) as [more ->].
  destruct (find _ (map identity (Users (view c)))) as [x|] eqn:F;
    [|discriminate].
  now rewrite (find_app_some _ _ more _ F).
Qed.

Lemma user_id_is_stable_witness :
  fst (get_user_id_by_handle "user1" demo_store) = Ok (Some 1)
  /\ fst (get_user_id_by_handle "user1"
            (run [AddUser 3 "user0"; UpdateUserSolvedProblems 4 "user1" []]
                 demo_store)) = Ok (Some 1).
Proof.
  assert (H : fst (get_user_id_by_handle "user1" demo_store) = Ok (Some 1))
    by (vm_compute; reflexivity).
  exact (conj H (user_id_is_stable "user1" 1 _ demo_store H)).
Defined.

(** X9. [add_server] always returns: it adds one row with the name at the
    end of [Servers], with an id larger than every id in the table, and
    leaves the other three tables as they are.  Names need not differ. *)
Theorem add_server_appends (name : string) (c : connection) :
  reachable c ->
  exists id,
    fst (add_server name c) = Ok tt
    /\ Servers (view (snd (add_server name c)))
       = Servers (view c) ++ [mkServer id name]
    /\ (forall sv, In sv (Servers (view c)) -> server_id sv < id)
    /\ Users (view (snd (add_server name c))) = Users (view c)
    /\ Channels (view (snd (add_server name c))) = Channels (view c)
    /\ UserChannelMapping (view (snd (add_server name c)))
       = UserChannelMapping (view c).
Proof.
  intros R. pose proof (wf_servers _ (reachable_well_formed _ R)) as K.
  exists (next_rowid server_id (Servers (view c)) (seq_Servers (view c))).
  rewrite add_server_eq. cbn. repeat split.
  intros sv I. rewrite (next_rowid_seq _ _ _ K).
  destruct K as (_ & _ & B). specialize (B sv I). lia.
Qed.

Lemma add_server_appends_witness :
  reachable demo_store
  /\ exists id,
       fst (add_server "Server1" demo_store) = Ok tt
       /\ Servers (view (snd (add_server "Server1" demo_store)))
          = Servers (view demo_store) ++ [mkServer id "Server1"]
       /\ (forall sv, In sv (Servers (view demo_store)) -> server_id sv < id)
       /\ Users (view (snd (add_server "Server1" demo_store)))
          = Users (view demo_store)
       /\ Channels (view (snd (add_server "Server1" demo_store)))
          = Channels (view demo_store)
       /\ UserChannelMapping (view (snd (add_server "Server1" demo_store)))
          = UserChannelMapping (view demo_store).
Proof.
  assert (R : reachable demo_store) by (exists demo; reflexivity).
  exact (conj R (add_server_appends "Server1" demo_store R)).
Defined.

(** X10. [add_channel] does not look at [Servers]: whatever server id it is
    given, within the range of a 64-bit integer, it returns and adds one
    row with the name and that server id at the end of [Channels], with an
    id larger than every id in the table; outside that range it raises the
    overflow error and the connection is as before. *)
Theorem add_channel_takes_any_server (name : string) (sid : Z)
  (c : connection) :
  reachable c ->
  (fits_int64 sid = true ->
   exists id,
     fst (add_channel name sid c) = Ok tt
     /\ Channels (view (snd (add_channel name sid c)))
        = Channels (view c) ++ [mkChannel id name sid]
     /\ (forall ch, In ch (Channels (view c)) -> channel_id ch < id)
     /\ Servers (view (snd (add_channel name sid c))) = Servers (view c))
  /\ (fits_int64 sid = false ->
      add_channel name sid c = (Raise OverflowError, c)).
Proof.
  intros R. pose proof (wf_channels _ (reachable_well_formed _ R)) as K.
  rewrite add_channel_eq. split; intros F; rewrite F; [|reflexivity].
  exists (next_rowid channel_id (Channels (view c)) (seq_Channels (view c))).
  cbn. repeat split.
  intros ch I. rewrite (next_rowid_seq _ _ _ K).
  destruct K as (_ & _ & B). specialize (B ch I). lia.
Qed.

Lemma add_channel_takes_any_server_witness :
  reachable demo_store
  /\ (fits_int64 404 = true ->
      exists id,
        fst (add_channel "lost" 404 demo_store) = Ok tt
        /\ Channels (view (snd (add_channel "lost" 404 demo_store)))
           = Channels (view demo_store) ++ [mkChannel id "lost" 404]
        /\ (forall ch, In ch (Channels (view demo_store)) ->
                       channel_id ch < id)
        /\ Servers (view (snd (add_channel "lost" 404 demo_store)))
           = Servers (view demo_store))
  /\ (fits_int64 404 = false ->
      add_channel "lost" 404 demo_store = (Raise OverflowError, demo_store)).
Proof.
  assert (R : reachable demo_store) by (exists demo; reflexivity).
  exact (conj R (add_channel_takes_any_server "lost" 404 demo_store R)).
Defined.

(** *** Mapping and querying *)

Lemma find_by_id {R} (key : R -> Z) (rows : list R) (r : R) :
  NoDup (map key rows) -> In r rows ->
  find (fun x => key x =? key r) rows = Some r.
Proof.
  intros N I. destruct (find (fun x => key x =? key r) rows) as [x|] eqn:F.
  - apply find_some in F as [Ix E]. apply Z.eqb_eq in E.
    f_equal. now apply (nodup_map_eq key rows x r).
  - pose proof (find_none _ _ F r I) as X. simpl in X.
    now rewrite Z.eqb_refl in X.
Qed.

(** The tuple of a membership of the user that has the handle. *)
Lemma joined_row_of_user h c u m :
  well_formed c ->
  find (handle_is h) (Users (view c)) = Some u ->
  joined_row h (view c) m
  = if mapping_user_id m =? user_id u
    then match find_channel (mapping_channel_id m) (view c),
               find_server (mapping_server_id m) (view c) with
         | Some ch, Some sv =>
             [(channel_id ch, channel_name ch, server_id sv, server_name sv)]
         | _, _ => []
         end
    else [].
Proof.
  intros [_ NH (_ & NU & _) _ _ _] F.
  apply find_some in F as [Iu Eu]. unfold joined_row, find_user.
  destruct (mapping_user_id m =? user_id u) eqn:E.
  - apply Z.eqb_eq in E. rewrite E, (find_by_id user_id _ u NU Iu), Eu.
    destruct (find_channel _ _); [|reflexivity].
    now destruct (find_server _ _).
  - destruct (find (fun v => user_id v =? mapping_user_id m)
                (Users (view c))) as [v|] eqn:Fv; [|reflexivity].
    apply find_some in Fv as [Iv Ev]. apply Z.eqb_eq in Ev.
    destruct (handle_is h v) eqn:X.
    + apply handle_is_true in X. apply handle_is_true in Eu.
      assert (v = u) by (apply (nodup_map_eq handle _ v u NH); congruence).
      subst v. rewrite Ev, Z.eqb_refl in E. discriminate.
    + destruct (find_channel _ _); [|reflexivity].
      now destruct (find_server _ _).
Qed.

(** The answer of the query after one more membership for the user. *)
Lemma select_after_mapping h cid sid c u ch sv :
  reachable c ->
  find (handle_is h) (Users (view c)) = Some u ->
  find_channel cid (view c) = Some ch ->
  find_server sid (view c) = Some sv ->
  fits_int64 cid = true -> fits_int64 sid = true ->
  map_user_to_channel h cid sid c
  = (Ok tt, snd (map_user_to_channel h cid sid c))
  /\ select_user_channels h (view (snd (map_user_to_channel h cid sid c)))
     = select_user_channels h (view c)
       ++ [(cid, channel_name ch, sid, server_name sv)].
Proof.
  intros R F Fc Fs Hc Hs. pose proof (reachable_well_formed _ R) as W.
  rewrite (map_user_to_channel_known _ _ _ _ _ F), Hc, Hs.
  cbn [andb fst snd view]. split; [reflexivity|].
  unfold select_user_channels at 1.
  cbn [Users Servers Channels UserChannelMapping].
  rewrite flat_map_app. f_equal. cbn [flat_map]. rewrite app_nil_r.
  destruct W as [_ _ (_ & NU & _) (_ & NS & _) (_ & NC & _) _].
  pose proof F as F'. apply find_some in F' as [Iu Eu].
  rewrite (flat_map_key user_id) by assumption. cbn [mapping_user_id].
  rewrite (find_by_id user_id _ u NU Iu).
  rewrite (flat_map_key channel_id) by assumption.
  cbn [mapping_channel_id]. fold (find_channel cid (view c)). rewrite Fc.
  rewrite (flat_map_key server_id) by assumption.
  cbn [mapping_server_id]. fold (find_server sid (view c)). rewrite Fs, Eu.
  apply find_some in Fc as [_ Ec]. apply find_some in Fs as [_ Es].
  apply Z.eqb_eq in Ec, Es. now rewrite Ec, Es.
Qed.

(** X11. For a user, a channel and a server that are in their tables,
    [map_user_to_channel] returns and the answer of [get_user_channels] for
    the handle becomes the former answer followed by one tuple: the ids
    given, the name of that channel and the name of that server.  The
    server of the tuple is the one given, whatever server the channel was
    added with. *)
Theorem map_then_get_user_channels (h : string) (cid sid : Z)
  (c : connection) (u : User) (ch : Channel) (sv : Server) :
  reachable c ->
  find (handle_is h) (Users (view c)) = Some u ->
  find_channel cid (view c) = Some ch ->
  find_server sid (view c) = Some sv ->
  fits_int64 cid = true -> fits_int64 sid = true ->
  fst (map_user_to_channel h cid sid c) = Ok tt
  /\ exists rows,
       fst (get_user_channels h c) = Ok rows
       /\ fst (get_user_channels h (snd (map_user_to_channel h cid sid c)))
          = Ok (rows ++ [(cid, channel_name ch, sid, server_name sv)]).
Proof.
  intros R F Fc Fs Hc Hs.
  destruct (select_after_mapping h cid sid c u ch sv R F Fc Fs Hc Hs)
    as [E S].
  split; [now rewrite E|].
  exists (select_user_channels h (view c)).
  rewrite !get_user_channels_eq. cbn [fst]. now rewrite S.
Qed.

Lemma map_then_get_user_channels_witness :
  reachable demo_store
  /\ fst (map_user_to_channel "user1" 3 1 demo_store) = Ok tt
  /\ exists rows,
       fst (get_user_channels "user1" demo_store) = Ok rows
       /\ fst (get_user_channels "user1"
                 (snd (map_user_to_channel "user1" 3 1 demo_store)))
          = Ok (rows ++ [(3, "Channel3", 1, "Server1")]).
Proof.
  assert (R : reachable demo_store) by (exists demo; reflexivity).
  exact (conj R
    (map_then_get_user_channels "user1" 3 1 demo_store
       demo_user (mkChannel 3 "Channel3" 2) (mkServer 1 "Server1")
       R eq_refl eq_refl eq_refl eq_refl eq_refl)).
Defined.

(** X12. Nothing keeps a membership from being made twice: after two
    equal calls of [map_user_to_channel], for a user, a channel and a
    server that are in their tables, [get_user_channels] answers with the
    former answer followed by the same tuple twice. *)
Theorem map_twice_answers_twice (h : string) (cid sid : Z)
  (c : connection) (u : User) (ch : Channel) (sv : Server) :
  reachable c ->
  find (handle_is h) (Users (view c)) = Some u ->
  find_channel cid (view c) = Some ch ->
  find_server sid (view c) = Some sv ->
  fits_int64 cid = true -> fits_int64 sid = true ->
  exists rows,
    fst (get_user_channels h c) = Ok rows
    /\ fst (get_user_channels h
              (run [MapUserToChannel h cid sid; MapUserToChannel h cid sid] c))
       = Ok (rows ++ [(cid, channel_name ch, sid, server_name sv);
                      (cid, channel_name ch, sid, server_name sv)]).
Proof.
  intros R F Fc Fs Hc Hs.
  exists (select_user_channels h (view c)).
  rewrite !get_user_channels_eq. cbn [fst run fold_left after].
  split; [reflexivity|]. f_equal.
  destruct (select_after_mapping h cid sid c u ch sv R F Fc Fs Hc Hs)
    as [_ S1].
  set (c1 := snd (map_user_to_channel h cid sid c)) in *.
  assert (R1 : reachable c1)
    by exact (reachable_after (MapUserToChannel h cid sid) c R).
  assert (F1 : find (handle_is h) (Users (view c1)) = Some u).
  { unfold c1. change (snd (map_user_to_channel h cid sid c))
      with (after (MapUserToChannel h cid sid) c).
    now rewrite users_after. }
  assert (Fc1 : find_channel cid (view c1) = Some ch).
  { unfold c1, find_channel.
    change (snd (map_user_to_channel h cid sid c))
      with (after (MapUserToChannel h cid sid) c).
    now rewrite channels_after. }
  assert (Fs1 : find_server sid (view c1) = Some sv).
  { unfold c1, find_server.
    change (snd (map_user_to_channel h cid sid c))
      with (after (MapUserToChannel h cid sid) c).
    now rewrite servers_after. }
  destruct (select_after_mapping h cid sid c1 u ch sv R1 F1 Fc1 Fs1 Hc Hs)
    as [_ S2].
  rewrite S2, S1, <- app_assoc. reflexivity.
Qed.

Lemma map_twice_answers_twice_witness :
  reachable demo_store
  /\ exists rows,
       fst (get_user_channels "user1" demo_store) = Ok rows
       /\ fst (get_user_channels "user1"
                 (run [MapUserToChannel "user1" 1 1;
                       MapUserToChannel "user1" 1 1] demo_store))
          = Ok (rows ++ [(1, "Channel1", 1, "Server1");
                         (1, "Channel1", 1, "Server1")]).
Proof.
  assert (R : reachable demo_store) by (exists demo; reflexivity).
  exact (conj R
    (map_twice_answers_twice "user1" 1 1 demo_store
       demo_user (mkChannel 1 "Channel1" 1) (mkServer 1 "Server1")
       R eq_refl eq_refl eq_refl eq_refl eq_refl)).
Defined.

Lemma in_select h t row :
  In row (select_user_channels h t) ->
  exists m u,
    In m (UserChannelMapping t) /\ In u (Users t)
    /\ user_id u = mapping_user_id m /\ handle u = h.
Proof.
  unfold select_user_channels. intros I.
  apply in_flat_map in I as (m & Im & I).
  apply in_flat_map in I as (u & Iu & I).
  destruct (user_id u =? mapping_user_id m) eqn:E; [|destruct I].
  apply in_flat_map in I as (ch & _ & I).
  destruct (channel_id ch =? mapping_channel_id m); [|destruct I].
  apply in_flat_map in I as (sv & _ & I).
  destruct (server_id sv =? mapping_server_id m); [|destruct I].
  destruct (handle_is h u) eqn:X; [|destruct I].
  exists m, u. apply Z.eqb_eq in E. apply handle_is_true in X. easy.
Qed.

(** X13. A user that [add_user] has just added is in no channel:
    [get_user_channels] answers with the empty list for the new handle. *)
Theorem new_user_has_no_channels (now : timestamp) (h : string)
  (c : connection) :
  reachable c ->
  (forall u, In u (Users (view c)) -> handle u <> h) ->
  fst (add_user now h c) = Ok tt
  /\ fst (get_user_channels h (snd (add_user now h c))) = Ok [].
Proof.
  intros R H. pose proof (wf_users _ (reachable_well_formed _ R)) as K.
  pose proof (memberships_refer_reachable _ R) as M.
  apply existsb_handle_false in H as E.
  rewrite get_user_channels_eq, add_user_fresh by assumption.
  cbn [fst snd view]. split; [reflexivity|]. f_equal.
  match goal with |- ?l = [] => destruct l as [|row rows] eqn:L end;
    [reflexivity|].
  exfalso.
  assert (I : In row (row :: rows)) by now left.
  rewrite <- L in I. apply in_select in I as (m & u & Im & Iu & Eid & Eh).
  cbn [Users UserChannelMapping] in Im, Iu.
  apply in_app_iff in Iu as [Iu|[<-|[]]]; [now destruct (H u Iu)|].
  cbn [user_id] in Eid. destruct (M m Im) as (v & Iv & Ev).
  rewrite (next_rowid_seq _ _ _ K) in Eid.
  destruct K as (_ & _ & B). specialize (B v Iv). lia.
Qed.

Lemma new_user_has_no_channels_witness :
  reachable demo_store
  /\ (forall u, In u (Users (view demo_store)) -> handle u <> "user2")
  /\ fst (add_user 9 "user2" demo_store) = Ok tt
  /\ fst (get_user_channels "user2" (snd (add_user 9 "user2" demo_store)))
     = Ok [].
Proof.
  assert (R : reachable demo_store) by (exists demo; reflexivity).
  assert (H : forall u, In u (Users (view demo_store)) -> handle u <> "user2")
    by (intros u [<-|[]]; discriminate).
  exact (conj R (conj H (new_user_has_no_channels 9 "user2" demo_store R H))).
Defined.

(** X14. In every state the store can reach, the answer of
    [get_user_channels] for the handle of a user has as many tuples as the
    user has memberships whose channel and server are both in their
    tables: one for each, repeated memberships counted. *)
Theorem one_tuple_per_membership (h : string) (c : connection) (u : User) :
  reachable c ->
  find (handle_is h) (Users (view c)) = Some u ->
  exists rows,
    fst (get_user_channels h c) = Ok rows
    /\ List.length rows
       = List.length (live_memberships (user_id u) (view c)).
Proof.
  intros R F. pose proof (reachable_well_formed _ R) as W.
  exists (select_user_channels h (view c)).
  rewrite get_user_channels_eq. split; [reflexivity|].
  destruct W as [Wc NH WU WS WC Wn].
  rewrite select_user_channels_joined
    by (try apply WU; try apply WS; apply WC).
  unfold memberships_joined, live_memberships.
  induction (UserChannelMapping (view c)) as [|m ms IH]; [reflexivity|].
  cbn [flat_map filter]. rewrite length_app, IH.
  rewrite (joined_row_of_user h c u m
             (Build_well_formed c Wc NH WU WS WC Wn) F).
  unfold dangling.
  destruct (mapping_user_id m =? user_id u); [|reflexivity].
  destruct (find_channel _ _); [destruct (find_server _ _)|]; reflexivity.
Qed.

Lemma one_tuple_per_membership_witness :
  reachable dangling_store
  /\ exists rows,
       fst (get_user_channels "carol" dangling_store) = Ok rows
       /\ List.length rows
          = List.length (live_memberships 1 (view dangling_store)).
Proof.
  assert (R : reachable dangling_store) by (eexists; reflexivity).
  exact (conj R
    (one_tuple_per_membership "carol" dangling_store
       (mkUser 1 "carol" 0 "[]" 0 0) R eq_refl)).
Defined.

Lemma flat_map_map {A B C} (f : A -> B) (g : B -> list C) (l : list A) :
  flat_map g (map f l) = flat_map (fun x => g (f x)) l.
Proof.
  induction l as [|x l IH]; [reflexivity|]. simpl. now rewrite IH.
Qed.

(** X15. The query of [get_user_channels] never reads the [server_id]
    column of [Channels]: with that column rewritten in any way the answer
    is the same. *)
Theorem channel_server_is_not_read (f : Channel -> Z) (h : string)
  (c : connection) :
  select_user_channels h (with_channel_servers f (view c))
  = select_user_channels h (view c)
  /\ fst (get_user_channels h c) = Ok (select_user_channels h (view c)).
Proof.
  split; [|now rewrite get_user_channels_eq].
  unfold select_user_channels, with_channel_servers.
  cbn [Users Servers Channels UserChannelMapping].
  apply flat_map_ext. intros m. apply flat_map_ext. intros u.
  destruct (user_id u =? mapping_user_id m); [|reflexivity].
  now rewrite flat_map_map.
Qed.

(** *** Updates *)

(** X16. Of two updates of the same handle in a row the second one wins
    when its list can be written (every item has at most 4300 digits): the
    connection after both is the connection after the second alone,
    whether the first returned or raised. *)
Theorem update_last_wins (now1 now2 : timestamp) (h : string)
  (solved1 solved2 : list Z) (c : connection) :
  all_within_limit solved2 = true ->
  fst (update_user_solved_problems now2 h solved2 c) = Ok tt
  /\ snd (update_user_solved_problems now2 h solved2
            (snd (update_user_solved_problems now1 h solved1 c)))
     = snd (update_user_solved_problems now2 h solved2 c).
Proof.
  intros W. rewrite !update_user_solved_problems_eq, (dumps_eq solved2), W.
  split; [reflexivity|].
  destruct (Json.dumps solved1) as [text1|]; [|reflexivity].
  cbn [snd view Users Servers Channels UserChannelMapping
       seq_Users seq_Servers seq_Channels seq_UserChannelMapping].
  rewrite map_map.
  set (text2 := ("[" ++ join_text solved2 ++ "]")%string).
  assert (E : forall u,
    (if handle_is h
          (if handle_is h u
           then set_solved (Z.of_nat (List.length solved1)) text1 now1 u
           else u)
     then set_solved (Z.of_nat (List.length solved2)) text2 now2
            (if handle_is h u
             then set_solved (Z.of_nat (List.length solved1)) text1 now1 u
             else u)
     else if handle_is h u
          then set_solved (Z.of_nat (List.length solved1)) text1 now1 u
          else u)
    = if handle_is h u
      then set_solved (Z.of_nat (List.length solved2)) text2 now2 u
      else u).
  { intros u. destruct (handle_is h u) eqn:X; [|now rewrite X].
    unfold handle_is in *. cbn. now rewrite X. }
  now rewrite (map_ext _ _ E).
Qed.

Lemma update_last_wins_witness :
  all_within_limit [2; 3] = true
  /\ fst (update_user_solved_problems 6 "user1" [2; 3] demo_store) = Ok tt
  /\ snd (update_user_solved_problems 6 "user1" [2; 3]
            (snd (update_user_solved_problems 5 "user1" [10 ^ 4300]
                    demo_store)))
     = snd (update_user_solved_problems 6 "user1" [2; 3] demo_store).
Proof.
  exact (conj eq_refl
           (update_last_wins 5 6 "user1" [10 ^ 4300] [2; 3] demo_store
              eq_refl)).
Defined.

(** X17. [update_user_solved_problems] changes no answer of the two
    queries: for every handle, [get_user_id_by_handle] and
    [get_user_channels] return after the update what they returned
    before it. *)
Theorem update_keeps_lookups (now : timestamp) (h : string)
  (solved : list Z) (h' : string) (c : connection) :
  fst (get_user_id_by_handle h'
         (snd (update_user_solved_problems now h solved c)))
  = fst (get_user_id_by_handle h' c)
  /\ fst (get_user_channels h'
            (snd (update_user_solved_problems now h solved c)))
     = fst (get_user_channels h' c).
Proof.
  rewrite !get_user_id_by_handle_eq, !get_user_channels_eq,
    update_user_solved_problems_eq.
  destruct (Json.dumps solved) as [text|]; [|now split].
  cbn [fst snd view]. split; f_equal.
  - cbn [Users]. rewrite !lookup_by_identity.
    now rewrite map_identity_update.
  - unfold select_user_channels.
    cbn [Users Servers Channels UserChannelMapping].
    apply flat_map_ext. intros m. rewrite flat_map_map.
    apply flat_map_ext. intros u.
    destruct (handle_is h u); reflexivity.
Qed.

(** *** Timestamps *)

Lemma timestamps_after last k c :
  (forall u, In u (Users (view c)) ->
             last_check_time u <= last_update_time u <= last) ->
  match clock_reading k with
  | Some now =>
      last <= now ->
      forall u, In u (Users (view (after k c))) ->
                last_check_time u <= last_update_time u <= now
  | None =>
      forall u, In u (Users (view (after k c))) ->
                last_check_time u <= last_update_time u <= last
  end.
Proof.
  intros H. destruct k; cbn [clock_reading]; rewrite users_after;
    try exact H.
  - intros L u I.
    destruct (existsb (handle_is h) (Users (view c))).
    + specialize (H u I). lia.
    + apply in_app_iff in I as [I|[<-|[]]]; [specialize (H u I)|cbn]; lia.
  - intros L u I. destruct (Json.dumps solved) as [text|].
    + apply in_map_iff in I as (v & <- & I).
      specialize (H v I). destruct (handle_is h v); cbn; lia.
    + specialize (H u I). lia.
Qed.

Lemma timestamps_run ks : forall last c,
  clock_ok last ks = true ->
  (forall u, In u (Users (view c)) ->
             last_check_time u <= last_update_time u <= last) ->
  forall u, In u (Users (view (run ks c))) ->
            last_check_time u <= last_update_time u.
Proof.
  induction ks as [|k ks IH]; intros last c K H u I.
  - specialize (H u I). lia.
  - cbn [clock_ok] in K. pose proof (timestamps_after last k c H) as T.
    destruct (clock_reading k) as [now|].
    + apply andb_prop in K as [L K]. apply Z.leb_le in L.
      exact (IH now (after k c) K (T L) u I).
    + exact (IH last (after k c) K T u I).
Qed.

(** X18. When the clock never goes back from one call to the next, every
    row of [Users] has a [last_update_time] that is not before its
    [last_check_time]. *)
Theorem timestamps_ordered (first : timestamp) (ks : list call) (u : User) :
  clock_ok first ks = true ->
  In u (Users (view (run ks (_initialize_database None)))) ->
  last_check_time u <= last_update_time u.
Proof.
  intros K. apply (timestamps_run ks first); [exact K|]. intros v [].
Qed.

Lemma timestamps_ordered_witness :
  clock_ok 0 demo = true
  /\ In demo_user (Users (view (run demo (_initialize_database None))))
  /\ last_check_time demo_user <= last_update_time demo_user.
Proof.
  assert (K : clock_ok 0 demo = true) by reflexivity.
  assert (I : In demo_user
                 (Users (view (run demo (_initialize_database None)))))
    by (left; reflexivity).
  exact (conj K (conj I (timestamps_ordered 0 demo demo_user K I))).
Defined.

(** *** The stored text *)

(** X19. Two lists that [update_user_solved_problems] stores as the same
    text are the same list. *)
Theorem stored_text_determines_list (solved1 solved2 : list Z)
  (text : string) :
  Json.dumps solved1 = Some text -> Json.dumps solved2 = Some text ->
  solved1 = solved2.
Proof.
  intros E1 E2. pose proof (loads_dumps solved1 text E1) as L.
  rewrite (loads_dumps solved2 text E2) in L. now injection L.
Qed.

Lemma stored_text_determines_list_witness :
  Json.dumps [7; -7] = Some "[7, -7]"%string
  /\ Json.dumps [7; -7] = Some "[7, -7]"%string
  /\ [7; -7] = [7; -7].
Proof.
  exact (conj eq_refl (conj eq_refl
           (stored_text_determines_list [7; -7] [7; -7] "[7, -7]"%string
              eq_refl eq_refl))).
Defined.

End StoreLaws.

(* ================================================================= *)
(** ** The singleton: the lock, the flag and the path without the lock *)

Section SingletonLaws.
Import Singleton Schedules.
#[local] Open Scope list_scope.

Lemma sched_step_other i j s : i <> j -> at_pc (sched_step s j) i = at_pc s i.
Proof.
  intros N. unfold sched_step, step.
  destruct (at_pc s j); try destruct (_lock s); cbn [at_pc];
    rewrite ?goto_other by assumption; reflexivity.
Qed.

Lemma instance_stays j s :
  _instance s <> None -> _instance (sched_step s j) <> None.
Proof.
  intros N. unfold sched_step, step.
  destruct (at_pc s j); try destruct (_lock s); cbn [_instance];
    trivial; discriminate.
Qed.

Lemma fast_path_outside n : in_critical (fast_path n) = false.
Proof. destruct n as [|[|n]]; reflexivity. Qed.

Lemma fast_path_run i schedule : forall s n,
  invariant s -> _instance s <> None -> at_pc s i = fast_path n ->
  at_pc (run schedule s) i = fast_path (n + turns i schedule).
Proof.
  induction schedule as [|j schedule IH]; intros s n I N E.
  - cbn. now rewrite Nat.add_0_r.
  - cbn [run fold_left]. fold (run schedule (sched_step s j)).
    pose proof (invariant_sched_step s j I) as I'.
    pose proof (instance_stays j s N) as N'.
    unfold turns. cbn [count_occ]. destruct (Nat.eq_dec j i) as [->|D].
    + fold (turns i schedule). rewrite Nat.add_succ_r.
      apply (IH _ (S n) I' N').
      unfold sched_step, step. rewrite E.
      destruct n as [|[|n]]; cbn [fast_path].
      * destruct (_instance s) as [a|] eqn:Ea; [|now destruct N].
        cbn [at_pc]. now rewrite goto_same.
      * cbn [at_pc]. rewrite goto_same.
        destruct (_instance s) as [a|] eqn:Ea; [|now destruct N].
        now rewrite (phase_instance s (inv_phase s I) a Ea).
      * exact E.
    + fold (turns i schedule). apply (IH _ n I' N').
      rewrite sched_step_other by congruence. exact E.
Qed.

(** X20. Whatever the interleaving, at most one invocation is inside the
    [with cls._lock] block. *)
Theorem one_invocation_in_the_block (schedule : list nat) (i j : nat) :
  in_critical (at_pc (run schedule init) i) = true ->
  in_critical (at_pc (run schedule init) j) = true ->
  i = j.
Proof.
  pose proof (invariant_run schedule init invariant_init) as I.
  intros Hi Hj. apply (inv_lock _ I) in Hi. apply (inv_lock _ I) in Hj.
  congruence.
Qed.

Lemma one_invocation_in_the_block_witness :
  in_critical (at_pc (run [0; 1; 0; 1; 0; 1]%nat init) 0%nat) = true
  /\ in_critical (at_pc (run [0; 1; 0; 1; 0; 1]%nat init) 0%nat) = true
  /\ 0%nat = 0%nat.
Proof.
  assert (H : in_critical (at_pc (run [0; 1; 0; 1; 0; 1]%nat init) 0%nat)
              = true) by (vm_compute; reflexivity).
  exact (conj H (conj H
           (one_invocation_in_the_block [0; 1; 0; 1; 0; 1]%nat 0%nat 0%nat
              H H))).
Defined.

(** X21. Once [_instance] is set, an invocation that starts goes from line
    21 to line 29 and returns the instance in its first two turns, however
    the other invocations are interleaved with it, whether or not the setup
    is complete and whoever holds the lock; it never takes the lock. *)
Theorem no_lock_once_instance_is_set (before later : list nat) (i : nat) :
  _instance (run before init) <> None ->
  at_pc (run before init) i = CheckInstance ->
  at_pc (run (before ++ later) init) i = fast_path (turns i later)
  /\ _lock (run (before ++ later) init) <> Some i.
Proof.
  intros N E. pose proof (invariant_run before init invariant_init) as I.
  rewrite run_app.
  pose proof (fast_path_run i later _ 0%nat I N E) as F. cbn [Nat.add] in F.
  split; [exact F|]. intros L.
  pose proof (inv_phase _ (invariant_run later _ I)) as P.
  unfold phase_ok in P. rewrite L, F in P.
  destruct (turns i later) as [|[|n]]; exact P.
Qed.

Lemma no_lock_once_instance_is_set_witness :
  _instance (run [0; 0; 0; 0; 0]%nat init) <> None
  /\ at_pc (run [0; 0; 0; 0; 0]%nat init) 1%nat = CheckInstance
  /\ at_pc (run ([0; 0; 0; 0; 0]%nat ++ [1; 0; 1; 0]%nat) init) 1%nat
     = fast_path (turns 1%nat [1; 0; 1; 0]%nat)
  /\ _lock (run ([0; 0; 0; 0; 0]%nat ++ [1; 0; 1; 0]%nat) init) <> Some 1%nat.
Proof.
  assert (N : _instance (run [0; 0; 0; 0; 0]%nat init) <> None)
    by (vm_compute; discriminate).
  assert (E : at_pc (run [0; 0; 0; 0; 0]%nat init) 1%nat = CheckInstance)
    by (vm_compute; reflexivity).
  exact (conj N (conj E
           (no_lock_once_instance_is_set [0; 0; 0; 0; 0]%nat
              [1; 0; 1; 0]%nat 1%nat N E))).
Defined.

(** X22. An invocation can return the instance before the connection is
    opened and the schema made: there is an interleaving after which an
    invocation has returned the object while [sqlite3.connect] and
    [_initialize_database] have not been called and [_dcl] is not set. *)
Theorem instance_returned_before_setup :
  exists schedule i,
    at_pc (run schedule init) i = Returned (Some 0%nat)
    /\ connects (run schedule init) = 0%nat
    /\ bootstraps (run schedule init) = 0%nat
    /\ _dcl (run schedule init) = false.
Proof.
  exists [0; 0; 0; 0; 0; 1; 1]%nat, 1%nat. vm_compute. repeat split.
Qed.

(** X23. Whatever the interleaving, when [_dcl] is set the instance has
    been made and the connection opened and the schema made, each once. *)
Theorem dcl_means_set_up (schedule : list nat) :
  _dcl (run schedule init) = true ->
  _instance (run schedule init) = Some 0%nat
  /\ allocated (run schedule init) = 1%nat
  /\ connects (run schedule init) = 1%nat
  /\ bootstraps (run schedule init) = 1%nat.
Proof.
  pose proof (inv_phase _ (invariant_run schedule init invariant_init)) as P.
  revert P. generalize (run schedule init). intros s.
  unfold phase_ok, shared, untouched, set_up.
  destruct (_lock s) as [k|]; [destruct (at_pc s k)|]; intros P D;
    try contradiction; try destruct P as [P|P];
    injection P as -> Ed -> -> ->; try congruence; repeat split.
Qed.

Lemma dcl_means_set_up_witness :
  _dcl (run (repeat 0%nat 9) init) = true
  /\ _instance (run (repeat 0%nat 9) init) = Some 0%nat
  /\ allocated (run (repeat 0%nat 9) init) = 1%nat
  /\ connects (run (repeat 0%nat 9) init) = 1%nat
  /\ bootstraps (run (repeat 0%nat 9) init) = 1%nat.
Proof.
  assert (D : _dcl (run (repeat 0%nat 9) init) = true)
    by (vm_compute; reflexivity).
  exact (conj D (dcl_means_set_up (repeat 0%nat 9) D)).
Defined.

End SingletonLaws.

(* ================================================================= *)
(** ** The instance: leaving the [with] block *)

Section LifecycleLaws.
Import Store Spec History Lifecycle.
#[local] Open Scope list_scope.

Lemma invoke_eq k c :
  invoke k c
  = (match raised k c with
     | None => Ok tt
     | Some e => Raise e
     end, after k c).
Proof.
  destruct k; cbn [invoke raised after].
  - destruct (add_user now h c) as [[[]|e] c']; reflexivity.
  - destruct (add_server name c) as [[[]|e] c']; reflexivity.
  - destruct (add_channel name sid c) as [[[]|e] c']; reflexivity.
  - destruct (map_user_to_channel h cid sid c) as [[[]|e] c']; reflexivity.
  - destruct (update_user_solved_problems now h solved c) as [[[]|e] c'];
      reflexivity.
  - unfold bind. now rewrite get_user_channels_eq.
  - unfold bind. now rewrite get_user_id_by_handle_eq.
Qed.

(** A script on an open connection: the calls that returned are the ones
    that took effect. *)
Lemma script_completed ks : forall c,
  exists r,
    script ks (Opened c) = (r, Opened (run (completed ks c) c))
    /\ (r = Returns tt <-> completed ks c = ks).
Proof.
  induction ks as [|k ks IH]; intros c.
  - exists (Returns tt). now split.
  - cbn [script method completed]. rewrite invoke_eq.
    destruct (raised k c) as [e|] eqn:E.
    + exists (Raises (Failed e)). rewrite (after_raised k c e E).
      split; [reflexivity|]. split; discriminate.
    + destruct (IH (after k c)) as (r & S & Q). exists r.
      split; [exact S|]. rewrite Q. split; [now intros ->|].
      now intros [= ->].
Qed.


(** X25. A [with] block around a script, on a store in a state it can
    reach: the block ends with the connection closed and with the outcome
    of the script, an exception of the script going on to the caller; the
    file then holds the effect of exactly the calls that returned; and a
    connection opened on that file and bootstrapped again sees those tables
    unchanged. *)
Theorem with_block_keeps_completed_calls (ks : list call) (c : connection) :
  reachable c ->
  exists r,
    script ks (__enter__ (Opened c))
    = (r, Opened (run (completed ks c) c))
    /\ with_block (script ks) (Opened c)
       = (r, Closed (view (run (completed ks c) c)))
    /\ (r = Returns tt <-> completed ks c = ks)
    /\ connect_and_initialize (Some (view (run (completed ks c) c)))
       = Opened (run (completed ks c) c).
Proof.
  intros R. destruct (script_completed ks c) as (r & S & Q). exists r.
  pose proof (wf_committed _
                (reachable_well_formed _ (reachable_run (completed ks c) c R)))
    as D.
  unfold with_block, __enter__. rewrite S.
  cbn [__exit__ connection_close except_AttributeError]. rewrite D.
  repeat split; try apply Q.
  unfold connect_and_initialize, _initialize_database.
  rewrite <- D at 2. now rewrite same_connection.
Qed.

Lemma with_block_keeps_completed_calls_witness :
  reachable (_initialize_database None)
  /\ exists r,
       script (demo ++ [AddUser 2 "user1"; AddServer "Server3"])
         (__enter__ (Opened (_initialize_database None)))
       = (r, Opened (run (completed
                            (demo ++ [AddUser 2 "user1"; AddServer "Server3"])
                            (_initialize_database None))
                       (_initialize_database None)))
       /\ with_block
            (script (demo ++ [AddUser 2 "user1"; AddServer "Server3"]))
            (Opened (_initialize_database None))
          = (r, Closed (view (run (completed
                                     (demo ++ [AddUser 2 "user1";
                                               AddServer "Server3"])
                                     (_initialize_database None))
                                (_initialize_database None))))
       /\ (r = Returns tt
           <-> completed (demo ++ [AddUser 2 "user1"; AddServer "Server3"])
                 (_initialize_database None)
               = demo ++ [AddUser 2 "user1"; AddServer "Server3"])
       /\ connect_and_initialize
            (Some (view (run (completed
                               (demo ++ [AddUser 2 "user1";
                                         AddServer "Server3"])
                               (_initialize_database None))
                          (_initialize_database None))))
          = Opened (run (completed
                           (demo ++ [AddUser 2 "user1"; AddServer "Server3"])
                           (_initialize_database None))
                      (_initialize_database None)).
Proof.
  assert (R : reachable (_initialize_database None))
    by (exists []; reflexivity).
  exact (conj R (with_block_keeps_completed_calls _ _ R)).
Defined.

(** On a closed connection an update raises the error of the closed
    connection, unless its list cannot be written: then [json.dumps] raises
    first. *)
Example closed_update :
  method (UpdateUserSolvedProblems 5 "user1" [1; 2])
    (Closed (view demo_store))
  = (Raises ProgrammingError, Closed (view demo_store))
  /\ method (UpdateUserSolvedProblems 5 "user1" [10 ^ 4300])
       (Closed (view demo_store))
     = (Raises (Failed digits_exceeded), Closed (view demo_store)).
Proof.
  split; [vm_compute; reflexivity|].
  cbn [method argument_error]. now rewrite dumps_ten_to_4300.
Qed.

(** The script at the end of [db.py], on a new file. *)
Example main_script :
  with_block (script (demo ++ [GetUserChannels "user1"]))
    (connect_and_initialize None)
  = (Returns tt, Closed (view demo_store)).
Proof. vm_compute. reflexivity. Qed.

(** A script that adds the same handle twice stops there; the first user
    is in the file, the server of the third call is not. *)
Example script_stops_at_duplicate :
  with_block (script [AddUser 0 "a"; AddUser 1 "a"; AddServer "S"])
    (connect_and_initialize None)
  = (Raises (Failed (IntegrityError "UNIQUE constraint failed: Users.handle")),
     Closed (mkTables [mkUser 1 "a" 0 "[]" 0 0] [] [] [] 1 0 0 0)).
Proof. vm_compute. reflexivity. Qed.

End LifecycleLaws.
